(** * wikipedia-mapper: a shallow embedding of the crawler and the graph analytics

    Sources: [src/crawler.rs] (URL filter, frontier, worker pool),
    [src/analytics.rs] (PageRank), [src/pathfinder.rs] (BFS path finder),
    [src/graph.rs], [src/stats.rs], [src/state.rs].

    Modelling choices:
    - a [String] is a Rocq [string]; a [HashSet<String>] is a [gset string];
      a [HashMap<String, V>] is a [gmap string V];
    - an [f64] is Rocq's primitive binary64 [float], whose operations are the
      IEEE 754 ones Rust uses;
    - the crawler's tasks are threads of a small machine whose atomic steps are
      the critical sections and queue operations of the source; a run is a
      schedule (a list of thread ids), so every interleaving is a schedule. *)

From Stdlib Require Import Floats Uint63.
From stdpp Require Import base gmap sets list strings sorting pretty.
From Stdlib Require Import Ascii String.



(* ===================================================================== *)
(** ** Strings *)

(** [s.contains(c)] for a single character. *)
Fixpoint str_contains_char (c : ascii) (s : string) : bool :=
  match s with
  | EmptyString => false
  | String c' s' => if Ascii.eqb c c' then true else str_contains_char c s'
  end.

(** [s.starts_with(p)]. *)
Definition starts_with (s p : string) : bool := String.prefix p s.

(** [s.contains(needle)] for a string needle. *)
Fixpoint str_contains (s needle : string) : bool :=
  if String.prefix needle s then true
  else match s with
       | EmptyString => false
       | String _ s' => str_contains s' needle
       end.

(** Split at the first character satisfying [stop]; the stop character
    stays at the head of the second component. *)
Fixpoint split_at (stop : ascii -> bool) (s : string) : string * string :=
  match s with
  | EmptyString => (EmptyString, EmptyString)
  | String c s' =>
      if stop c then (EmptyString, s)
      else let '(a, b) := split_at stop s' in (String c a, b)
  end.

Definition ascii_lower (c : ascii) : ascii :=
  let n := nat_of_ascii c in
  if (65 <=? n)%nat && (n <=? 90)%nat then ascii_of_nat (n + 32)%nat else c.

Fixpoint str_lower (s : string) : string :=
  match s with
  | EmptyString => EmptyString
  | String c s' => String (ascii_lower c) (str_lower s')
  end.

Definition is_alpha (c : ascii) : bool :=
  let n := nat_of_ascii c in
  ((65 <=? n)%nat && (n <=? 90)%nat) || ((97 <=? n)%nat && (n <=? 122)%nat).

Definition is_digit (c : ascii) : bool :=
  let n := nat_of_ascii c in (48 <=? n)%nat && (n <=? 57)%nat.

Definition is_scheme_char (c : ascii) : bool :=
  is_alpha c || is_digit c || Ascii.eqb c "+" || Ascii.eqb c "-" || Ascii.eqb c ".".

Fixpoint str_forallb (p : ascii -> bool) (s : string) : bool :=
  match s with
  | EmptyString => true
  | String c s' => p c && str_forallb p s'
  end.

(** Drop leading characters satisfying [p]. *)
Fixpoint str_skip (p : ascii -> bool) (s : string) : string :=
  match s with
  | String c s' => if p c then str_skip p s' else s
  | EmptyString => EmptyString
  end.

(** The part of [s] after the last occurrence of [c] (all of [s] if none). *)
Fixpoint after_last (c : ascii) (s : string) : string :=
  match s with
  | EmptyString => EmptyString
  | String c' s' =>
      if str_contains_char c s' then after_last c s'
      else if Ascii.eqb c c' then s' else s
  end.

(* ===================================================================== *)
(** ** [url::Url::parse] *)

(** The parts of a parsed URL that [is_valid_url] reads. *)
Record Url := mkUrl {
  url_scheme : string;
  url_host : option string;   (** [host_str()] *)
  url_path : string           (** [path()] *)
}.

Definition is_special_scheme (s : string) : bool :=
  bool_decide (s ∈ ["http"; "https"; "ws"; "wss"; "ftp"]).

(** The external [url] crate's [Url::parse] on an absolute URL without a
    base, restricted to what [is_valid_url] observes: the scheme must be
    an ASCII letter followed by scheme characters and a [:]; for a special
    scheme the slashes after it are skipped, the authority runs up to the
    next [/], [\], [?] or [#], the host is the authority after its last
    [@] and before a [:port] (which must be decimal), it must be non-empty
    and is lower-cased, and the path runs up to [?] or [#] and is [/] when
    empty. A non-special scheme has no host. Percent-encoding and
    dot-segment normalisation are not modelled. *)
Definition url_parse (s : string) : option Url :=
  let '(sch, rest) := split_at (fun c => Ascii.eqb c ":") s in
  match sch, rest with
  | String c _, String _ rest' =>
      if is_alpha c && str_forallb is_scheme_char sch then
        let scheme := str_lower sch in
        let end_path := fun c => Ascii.eqb c "?" || Ascii.eqb c "#" in
        if is_special_scheme scheme then
          let r := str_skip (fun c => Ascii.eqb c "/" || Ascii.eqb c "\") rest' in
          let '(auth, tail) :=
            split_at (fun c => Ascii.eqb c "/" || Ascii.eqb c "\" || end_path c) r in
          let hostport := after_last "@" auth in
          let '(host, port) := split_at (fun c => Ascii.eqb c ":") hostport in
          let port_ok := match port with
                         | EmptyString => true
                         | String _ ds => str_forallb is_digit ds
                         end in
          if (host =? "")%string || negb port_ok then None
          else
            let path := fst (split_at end_path tail) in
            Some (mkUrl scheme (Some (str_lower host))
                        (if (path =? "")%string then "/" else path))
        else Some (mkUrl scheme None (fst (split_at end_path rest')))
      else None
  | _, _ => None
  end.

(* ===================================================================== *)
(** ** [URLFilter] (src/crawler.rs) *)

(** A compiled pattern of [INVALID_PATTERNS]. Every pattern there has the
    shape [L(.*?)] with a literal [L]; the lazy group may match the empty
    string, so [is_match] holds exactly when [L] occurs in the input. *)
Record Regex := mkRegex { regex_literal : string }.

Definition regex_is_match (r : Regex) (s : string) : bool :=
  str_contains s (regex_literal r).

(** [INVALID_PATTERNS]: [Wikipedia:(.*?)], [Special:(.*?)], ... *)
Definition INVALID_PATTERNS : list Regex :=
  map mkRegex ["Wikipedia:"; "Special:"; "Talk:"; "User:"; "File:";
               "Template:"; "Help:"; "Category:"; "Portal:"].

Record URLFilter := mkURLFilter {
  allowed_domains : gset string;
  excluded_patterns : list Regex;
  path_prefixes : gset string;
  custom_rules : gmap string (string -> bool)
}.

(** [impl Default for URLFilter]. *)
Definition URLFilter_default : URLFilter :=
  mkURLFilter {["en.wikipedia.org"]} INVALID_PATTERNS {["/wiki/"]} ∅.

(** [URLFilter::is_valid_url]. *)
Definition is_valid_url (f : URLFilter) (url : string) : bool :=
  if str_contains_char "#" url then false else
  match url_parse url with
  | None => false
  | Some u =>
      if negb (bool_decide (default "" (url_host u) ∈ allowed_domains f)) then false
      else
        let path := url_path u in
        if negb (existsb (starts_with path) (elements (path_prefixes f))) then false
        else if existsb (fun p => regex_is_match p path) (excluded_patterns f) then false
        else forallb (fun kv => kv.2 url) (map_to_list (custom_rules f))
  end.

(** [URLFilter::add_custom_rule]: insert or overwrite by name. *)
Definition add_custom_rule (f : URLFilter) (name : string) (rule : string -> bool)
  : URLFilter :=
  mkURLFilter (allowed_domains f) (excluded_patterns f) (path_prefixes f)
              (<[name := rule]> (custom_rules f)).

(* ===================================================================== *)
(** ** Crawl state: [CrawlStats], [GraphExporter], [Crawler], [CrawlState] *)

(** [src/stats.rs]; [start_time] is the clock reading taken by [new]. *)
Record CrawlStats := mkCrawlStats {
  pages_visited : nat;
  links_followed : nat;
  links_ignored : nat;
  start_time : nat
}.

(** [CrawlStats::new()] at clock reading [now]. *)
Definition CrawlStats_new (now : nat) : CrawlStats := mkCrawlStats 0 0 0 now.

(** [src/graph.rs]. *)
Record GraphExporter := mkGraphExporter {
  nodes : gset string;
  edges : list (string * string)
}.

Definition GraphExporter_new : GraphExporter := mkGraphExporter ∅ [].

(** [GraphExporter::add_edge]: both endpoints into [nodes], the pair
    appended to [edges]. *)
Definition graph_add_edge (g : GraphExporter) (from to : string) : GraphExporter :=
  mkGraphExporter ({[to]} ∪ ({[from]} ∪ nodes g)) (edges g ++ [(from, to)])%list.

(** [struct Crawler]: the frontier ([SegQueue], a FIFO queue: [push] at the
    back, [pop] at the front), the visited set, the stats, the graph and
    the filter. *)
Record Crawler := mkCrawler {
  queue : list (string * nat);
  visited : gset string;
  stats : CrawlStats;
  graph : GraphExporter;
  url_filter : URLFilter
}.

Definition set_queue (c : Crawler) (q : list (string * nat)) : Crawler :=
  mkCrawler q (visited c) (stats c) (graph c) (url_filter c).
Definition set_visited (c : Crawler) (v : gset string) : Crawler :=
  mkCrawler (queue c) v (stats c) (graph c) (url_filter c).
Definition set_stats (c : Crawler) (s : CrawlStats) : Crawler :=
  mkCrawler (queue c) (visited c) s (graph c) (url_filter c).
Definition set_graph (c : Crawler) (g : GraphExporter) : Crawler :=
  mkCrawler (queue c) (visited c) (stats c) g (url_filter c).

(** [SegQueue::pop]. *)
Definition queue_pop (q : list (string * nat)) : option ((string * nat) * list (string * nat)) :=
  match q with
  | [] => None
  | x :: q' => Some (x, q')
  end.

(** [SegQueue::push]. *)
Definition queue_push (q : list (string * nat)) (x : string * nat) : list (string * nat) :=
  (q ++ [x])%list.

Definition MAX_DEPTH : nat := 3.
Definition RATE_LIMIT : nat := 200.
Definition NUM_CONCURRENT_REQUESTS : nat := 10.
Definition MAX_PAGES_PER_WORKER : nat := 10.

(** [Crawler::new(start_url)] with the clock reading [now]. *)
Definition Crawler_new (start_url : option string) (now : nat) : Crawler :=
  mkCrawler (match start_url with Some u => [(u, 0)] | None => [] end)
            ∅ (CrawlStats_new now) GraphExporter_new URLFilter_default.

(** [src/state.rs]. *)
Record CrawlState := mkCrawlState {
  cs_queue : list (string * nat);
  cs_visited : gset string
}.

(** [Crawler::load_state]: push every saved entry, then replace the visited
    set. *)
Definition load_state (c : Crawler) (st : CrawlState) : Crawler :=
  set_visited (set_queue c (fold_left queue_push (cs_queue st) (queue c))) (cs_visited st).

(** The loop [while let Some(item) = self.queue.pop() { queue_vec.push(item) }]:
    returns the popped items and the queue left behind. *)
Fixpoint drain_queue (q : list (string * nat)) (acc : list (string * nat))
  : list (string * nat) * list (string * nat) :=
  match q with
  | [] => (acc, [])
  | x :: q' => drain_queue q' (acc ++ [x])%list
  end.

(** [Crawler::get_state]: the returned [CrawlState] and the crawler after
    the call. *)
Definition get_state (c : Crawler) : CrawlState * Crawler :=
  let '(queue_vec, rest) := drain_queue (queue c) [] in
  (mkCrawlState queue_vec (visited c), set_queue c rest).

(* ===================================================================== *)
(** ** [Crawler::extract_links] *)

(** [struct PageLinks]. *)
Record PageLinks := mkPageLinks {
  pl_links_followed : nat;
  pl_links_ignored : nat;
  pl_new_urls : list string
}.

(** HTML parsing is an external collaborator: a fetched page is modelled by
    the [href] attributes its four selectors yield, in the order the loop
    over [selectors] enumerates them (a link matched by several selectors
    occurs several times). *)
Definition Body := list string.

(** The loop body of [extract_links] over the enumerated [href]s. *)
Definition extract_links (content : Body) (f : URLFilter) : PageLinks :=
  fold_left
    (fun pl href =>
       let full_url := ("https://en.wikipedia.org" ++ href)%string in
       if is_valid_url f full_url
       then mkPageLinks (S (pl_links_followed pl)) (pl_links_ignored pl)
                        (pl_new_urls pl ++ [full_url])%list
       else mkPageLinks (pl_links_followed pl) (S (pl_links_ignored pl)) (pl_new_urls pl))
    content (mkPageLinks 0 0 []).

(* ===================================================================== *)
(** ** The crawl as a machine of interleaved tasks

    [start_crawl] runs on the main task: it resets the stats, pops one entry
    and runs [process_page] on it, then spawns [NUM_CONCURRENT_REQUESTS]
    workers and joins them. Each step below is one critical section, one
    queue operation, the fetch, or the rate-limit sleep of the source. *)

(** Observable effects: a call of [fetch_page], a [sleep(RATE_LIMIT)]. *)
Inductive Event :=
| EvFetch (url : string)
| EvSleep (worker : nat).

(** Where a call of [process_page] is. *)
Inductive PP :=
| PStart (url : string) (depth : nat)          (** depth check, filter check *)
| PCheck (url : string) (depth : nat)          (** read-locked visited check *)
| PFetch (url : string) (depth : nat)          (** [fetch_page(&url).await] *)
| PMark (url : string) (depth : nat) (body : Body)
                                               (** write-locked mark, then [extract_links] *)
| PKeep (url : string) (depth : nat) (rest acc : list string) (pl : PageLinks)
                                               (** one read-locked check per new url *)
| PGraph (url : string) (depth : nat) (todo : list string) (pl : PageLinks)
                                               (** [add_edge] and [push] per kept url *)
| PStats (pl : PageLinks)                      (** write-locked link counters *)
| PRet.                                        (** returned [Ok(())] *)

(** The main task of [start_crawl]. *)
Inductive MainPC :=
| MainPop
| MainPage (p : PP)
| MainSpawn
| MainJoin
| MainDone.

(** A spawned worker; [n] is its [local_visited_count]. *)
Inductive WorkerPC :=
| WLoop (n : nat)
| WCheck (url : string) (depth : nat) (n : nat)
| WPage (n : nat) (p : PP)
| WSleep (n : nat)
| WDone.

(** The shared crawler, the effects so far (most recent first), and the
    tasks. *)
Record World := mkWorld {
  crawler : Crawler;
  log : list Event;
  main_pc : MainPC;
  workers : list WorkerPC
}.

Section Crawl.

(** The fetcher collaborator [fetch_page]: the page or a failure. *)
Variable fetch : string -> option Body.

(** One step of [process_page]. *)
Definition step_page (p : PP) (c : Crawler) : option (PP * Crawler * list Event) :=
  match p with
  | PStart u d =>
      if (MAX_DEPTH <? d)%nat then Some (PRet, c, [])
      else if negb (is_valid_url (url_filter c) u) then Some (PRet, c, [])
      else Some (PCheck u d, c, [])
  | PCheck u d =>
      if bool_decide (u ∈ visited c) then Some (PRet, c, [])
      else Some (PFetch u d, c, [])
  | PFetch u d =>
      match fetch u with
      | None => Some (PRet, c, [EvFetch u])
      | Some body => Some (PMark u d body, c, [EvFetch u])
      end
  | PMark u d body =>
      let c' :=
        if bool_decide (u ∈ visited c) then c
        else set_stats (set_visited c ({[u]} ∪ visited c))
               (mkCrawlStats (S (pages_visited (stats c))) (links_followed (stats c))
                             (links_ignored (stats c)) (start_time (stats c))) in
      let pl := extract_links body (url_filter c') in
      Some (PKeep u d (pl_new_urls pl) [] pl, c', [])
  | PKeep u d (x :: rest) acc pl =>
      let acc' := if bool_decide (x ∈ visited c) then acc else (acc ++ [x])%list in
      Some (PKeep u d rest acc' pl, c, [])
  | PKeep u d [] acc pl => Some (PGraph u d acc pl, c, [])
  | PGraph u d (x :: todo) pl =>
      let c' := set_queue (set_graph c (graph_add_edge (graph c) u x))
                          (queue_push (queue c) (x, S d)) in
      Some (PGraph u d todo pl, c', [])
  | PGraph u d [] pl => Some (PStats pl, c, [])
  | PStats pl =>
      let s := stats c in
      Some (PRet, set_stats c (mkCrawlStats (pages_visited s)
                                (links_followed s + pl_links_followed pl)
                                (links_ignored s + pl_links_ignored pl) (start_time s)), [])
  | PRet => None
  end.

Definition worker_done (pc : WorkerPC) : bool :=
  match pc with WDone => true | _ => false end.

(** One step of task [tid]: [0] is the main task, [S j] is worker [j]. *)
Definition step_world (tid : nat) (w : World) : option World :=
  let c := crawler w in
  match tid with
  | 0 =>
      match main_pc w with
      | MainPop =>
          match queue_pop (queue c) with
          | None => Some (mkWorld c (log w) MainSpawn (workers w))
          | Some ((u, d), q) => Some (mkWorld (set_queue c q) (log w) (MainPage (PStart u d)) (workers w))
          end
      | MainPage PRet => Some (mkWorld c (log w) MainSpawn (workers w))
      | MainPage p =>
          match step_page p c with
          | Some (p', c', evs) => Some (mkWorld c' (evs ++ log w)%list (MainPage p') (workers w))
          | None => None
          end
      | MainSpawn =>
          Some (mkWorld c (log w) MainJoin (replicate NUM_CONCURRENT_REQUESTS (WLoop 0)))
      | MainJoin =>
          if forallb worker_done (workers w) then Some (mkWorld c (log w) MainDone (workers w))
          else None
      | MainDone => None
      end
  | S j =>
      match workers w !! j with
      | None => None
      | Some pc =>
          let upd pc' c' evs := Some (mkWorld c' (evs ++ log w)%list (main_pc w) (<[j := pc']> (workers w))) in
          match pc with
          | WLoop n =>
              if (n <? MAX_PAGES_PER_WORKER)%nat then
                match queue_pop (queue c) with
                | None => upd WDone c []
                | Some ((u, d), q) => upd (WCheck u d n) (set_queue c q) []
                end
              else upd WDone c []
          | WCheck u d n =>
              if bool_decide (u ∈ visited c) then upd (WLoop n) c []
              else upd (WPage n (PStart u d)) c []
          | WPage n PRet => upd (WSleep (S n)) c []
          | WPage n p =>
              match step_page p c with
              | Some (p', c', evs) => upd (WPage n p') c' evs
              | None => None
              end
          | WSleep n => upd (WLoop n) c [EvSleep j]
          | WDone => None
          end
      end
  end.

(** A run under a schedule; a task that cannot step is skipped. *)
Fixpoint run (sched : list nat) (w : World) : World :=
  match sched with
  | [] => w
  | tid :: sched' => run sched' (default w (step_world tid w))
  end.

(** [start_crawl] on crawler [c]: the stats are reset at clock [now]. *)
Definition start_crawl_init (c : Crawler) (now : nat) : World :=
  mkWorld (set_stats c (CrawlStats_new now)) [] MainPop [].

End Crawl.


Definition count_fetches (u : string) (l : list Event) : nat :=
  List.length (List.filter (fun e => match e with EvFetch v => String.eqb v u | _ => false end) l).

Definition count_all_fetches (l : list Event) : nat :=
  List.length (List.filter (fun e => match e with EvFetch _ => true | _ => false end) l).

Definition count_sleeps (l : list Event) : nat :=
  List.length (List.filter (fun e => match e with EvSleep _ => true | _ => false end) l).

(* ===================================================================== *)
(** ** Scenarios: stub fetchers and schedules *)

Definition seed_url : string := "https://en.wikipedia.org/wiki/Seed".
Definition x_url : string := "https://en.wikipedia.org/wiki/X".

(** The seed page links twice to [X] (two of the four selectors see the
    link); [X] has no links. *)
Definition fetch_twice_linked (u : string) : option Body :=
  if String.eqb u seed_url then Some ["/wiki/X"; "/wiki/X"]
  else if String.eqb u x_url then Some [] else None.

(** As above, but fetching [X] fails. *)
Definition fetch_x_fails (u : string) : option Body :=
  if String.eqb u seed_url then Some ["/wiki/X"; "/wiki/X"] else None.

(** [Crawler::new(Some(seed))] followed by [start_crawl]. *)
Definition seed_run : World := start_crawl_init (Crawler_new (Some seed_url) 0) 0.

(** The main task handles the seed and spawns the pool; then workers 0
    and 1 alternate: both pop an entry for [X] and pass their read-only
    visited checks before either fetches. *)
Definition sched_race : list nat := (repeat 0 20 ++ [1; 2; 1; 2; 1; 2; 1; 2; 1; 2])%list.

(** The main task handles the seed; then worker 0 alone runs. *)
Definition sched_one_worker : list nat := (repeat 0 20 ++ repeat 1 40)%list.

(* ===================================================================== *)
(** ** Invariant: [pages_visited] counts the URLs added to the visited set *)

Definition visited_tracked (v0 : gset string) (c : Crawler) : Prop :=
  v0 ⊆ visited c ∧ pages_visited (stats c) + size v0 = size (visited c).

Lemma step_page_visited fetch p c p' c' evs :
  step_page fetch p c = Some (p', c', evs) →
  (visited c' = visited c ∧ pages_visited (stats c') = pages_visited (stats c)) ∨
  ((∃ u, (u ∉ visited c) ∧ visited c' = {[u]} ∪ visited c ∧
        pages_visited (stats c') = S (pages_visited (stats c)))).
Proof.
  unfold step_page. destruct p; simpl; intros Hs; repeat case_match; simplify_eq/=; auto.
  case_bool_decide; simpl; [by left|]. right. eauto.
Qed.

Opaque step_page.

Lemma step_world_visited fetch i w w' :
  step_world fetch i w = Some w' →
  (visited (crawler w') = visited (crawler w) ∧
   pages_visited (stats (crawler w')) = pages_visited (stats (crawler w))) ∨
  ((∃ u, (u ∉ visited (crawler w)) ∧ visited (crawler w') = {[u]} ∪ visited (crawler w) ∧
        pages_visited (stats (crawler w')) = S (pages_visited (stats (crawler w))))).
Proof.
  unfold step_world. intros Hs.
  repeat case_match; simplify_eq/=; auto;
    try match goal with H : step_page _ _ _ = Some _ |- _ =>
      apply step_page_visited in H as [[-> ->] | (u & ? & -> & ->)]; eauto end.
Qed.

Transparent step_page.

Lemma visited_tracked_step fetch v0 i w w' :
  visited_tracked v0 (crawler w) → step_world fetch i w = Some w' →
  visited_tracked v0 (crawler w').
Proof.
  unfold visited_tracked. intros [Hsub Hsz] Hs. apply step_world_visited in Hs as [[-> ->] | (u & Hu & -> & ->)].
  - by split.
  - split; [set_solver|]. rewrite size_union; [|set_solver]. rewrite size_singleton. lia.
Qed.

Lemma visited_tracked_run fetch v0 sched w :
  visited_tracked v0 (crawler w) → visited_tracked v0 (crawler (run fetch sched w)).
Proof.
  revert w. induction sched as [|i sched IH]; intros w Hw; simpl; [done|].
  apply IH. destruct (step_world fetch i w) as [w'|] eqn:Hs; simpl; [|done].
  by eapply visited_tracked_step.
Qed.

(* ===================================================================== *)
(** ** [get_state] *)

Lemma drain_queue_spec q acc : drain_queue q acc = ((acc ++ q)%list, []).
Proof.
  revert acc. induction q as [|x q IH]; intros acc; simpl.
  - by rewrite app_nil_r.
  - rewrite IH. by rewrite <- app_assoc.
Qed.

(* ===================================================================== *)
(** ** Invariant: the page budget

    Every task holds a credit of pages it may still add to
    [pages_visited]: the main task one for its seed entry plus the whole
    budget of the pool it has not spawned yet, a worker [MAX_PAGES_PER_WORKER - n]
    while its [local_visited_count] is [n]. A call of [process_page] spends
    one unit when it reaches the write-locked mark. *)

Definition PAGE_BOUND : nat := 1 + NUM_CONCURRENT_REQUESTS * MAX_PAGES_PER_WORKER.

Definition pp_marked (p : PP) : nat :=
  match p with
  | PStart _ _ | PCheck _ _ | PFetch _ _ | PMark _ _ _ => 0
  | _ => 1
  end.

Definition main_credit (pc : MainPC) : nat :=
  match pc with
  | MainPop => PAGE_BOUND
  | MainPage p => PAGE_BOUND - pp_marked p
  | MainSpawn => NUM_CONCURRENT_REQUESTS * MAX_PAGES_PER_WORKER
  | MainJoin | MainDone => 0
  end.

Definition worker_credit (pc : WorkerPC) : nat :=
  match pc with
  | WLoop n | WCheck _ _ n | WSleep n => MAX_PAGES_PER_WORKER - n
  | WPage n p => MAX_PAGES_PER_WORKER - n - pp_marked p
  | WDone => 0
  end.

Definition worker_wf (pc : WorkerPC) : Prop :=
  match pc with
  | WCheck _ _ n | WPage n _ => (n < MAX_PAGES_PER_WORKER)%nat
  | WLoop n | WSleep n => (n ≤ MAX_PAGES_PER_WORKER)%nat
  | WDone => True
  end.

Definition main_unspawned (pc : MainPC) : Prop :=
  match pc with
  | MainPop | MainPage _ | MainSpawn => True
  | MainJoin | MainDone => False
  end.

Definition budget_inv (w : World) : Prop :=
  (pages_visited (stats (crawler w)) + main_credit (main_pc w)
    + sum_list_with worker_credit (workers w) ≤ PAGE_BOUND)%nat ∧
  Forall worker_wf (workers w) ∧
  (main_unspawned (main_pc w) → workers w = []).

Lemma step_page_marked fetch p c p' c' evs :
  step_page fetch p c = Some (p', c', evs) →
  pages_visited (stats c') + pp_marked p ≤ pages_visited (stats c) + pp_marked p' ∧
  pp_marked p ≤ pp_marked p' ∧ pp_marked p' ≤ 1.
Proof.
  unfold step_page. destruct p; simpl; intros Hs; repeat case_match; simplify_eq/=; lia.
Qed.

Lemma sum_list_with_insert {A} (f : A → nat) (l : list A) j x y :
  l !! j = Some y →
  sum_list_with f (<[j := x]> l) + f y = sum_list_with f l + f x.
Proof.
  revert j. induction l as [|a l IH]; intros [|j] Hj; simplify_eq/=; [lia|].
  specialize (IH j Hj). lia.
Qed.

Opaque step_page.

Ltac destr_step_page :=
  match goal with
  | H : context [step_page ?f ?p ?c] |- _ =>
      let Hp := fresh "Hp" in
      destruct (step_page f p c) as [[[? ?] ?]|] eqn:Hp; [|done]
  end.

Ltac budget_lia :=
  unfold PAGE_BOUND, MAX_PAGES_PER_WORKER, NUM_CONCURRENT_REQUESTS in *; simpl in *; lia.

Lemma budget_inv_step fetch i w w' :
  budget_inv w → step_world fetch i w = Some w' → budget_inv w'.
Proof.
  destruct w as [c lg m ws]. unfold budget_inv, step_world; simpl.
  intros (Hb & Hwf & Hun) Hs. destruct i as [|j].
  - destruct m as [|p| | |]; simpl in *;
      try (assert (ws = []) as -> by (apply Hun; exact I)).
    + destruct (queue_pop (queue c)) as [[[u d] q]|]; simplify_eq/=;
        (split; [budget_lia | split; [first [assumption | constructor] | done]]).
    + destruct p; simplify_eq/=;
        try (split; [budget_lia | split; [first [assumption | constructor] | done]]);
        destr_step_page;
        simplify_eq/=;
        match goal with Hp : step_page _ _ _ = Some _ |- _ => apply step_page_marked in Hp as (? & ? & ?); simpl in * end;
        (split; [budget_lia | split; [first [assumption | constructor] | done]]).
    + simplify_eq/=. split; [budget_lia|].
      split; [|done]. by repeat constructor.
    + destruct (forallb _ _); simplify_eq/=. split; [budget_lia | by split].
    + done.
  - destruct (ws !! j) as [pc|] eqn:Hj; [|done].
    assert (worker_wf pc) as Hpc by (eapply Forall_lookup_1; eauto).
    assert (¬ main_unspawned m) as Hsp.
    { intros Hu. rewrite Hun in Hj by done. done. }
    assert (∀ pc' c', worker_wf pc' →
              pages_visited (stats c') + worker_credit pc' ≤
                pages_visited (stats c) + worker_credit pc →
              budget_inv (mkWorld c' lg m (<[j := pc']> ws))) as Hupd'.
    { intros pc' c' Hwf' Hle. unfold budget_inv; simpl.
      pose proof (sum_list_with_insert worker_credit ws j pc' pc Hj).
      split; [budget_lia|]. split; [by apply Forall_insert|]. done. }
    destruct pc as [n|u d n|n p|n|]; simpl in Hpc.
    + destruct (Nat.ltb_spec n MAX_PAGES_PER_WORKER) as [Hn|Hn];
        [destruct (queue_pop (queue c)) as [[[u d] q]|]|]; simplify_eq/=;
        apply Hupd'; simpl; first [done | budget_lia].
    + case_bool_decide; simplify_eq/=; apply Hupd'; simpl; first [done | budget_lia].
    + destruct p; simplify_eq/=;
        try (apply Hupd'; simpl in *; first [done | budget_lia]);
        destr_step_page;
        simplify_eq/=;
        match goal with Hp : step_page _ _ _ = Some _ |- _ => apply step_page_marked in Hp as (? & ? & ?); simpl in * end;
        apply Hupd'; simpl in *; first [done | budget_lia].
    + simplify_eq/=. apply Hupd'; simpl; first [done | budget_lia].
    + done.
Qed.

Transparent step_page.

Lemma budget_inv_run fetch sched w :
  budget_inv w → budget_inv (run fetch sched w).
Proof.
  revert w. induction sched as [|i sched IH]; intros w Hw; simpl; [done|].
  apply IH. destruct (step_world fetch i w) as [w'|] eqn:Hs; simpl; [|done].
  by eapply budget_inv_step.
Qed.

(* ===================================================================== *)
(** ** More scenarios *)

(** The seed page links to [/wiki/P0] ... [/wiki/P99]; every other page
    has no links. *)
Definition hundred_hrefs : list string :=
  map (fun n => ("/wiki/P" +:+ pretty (N.of_nat n))%string) (seq 0 100).

Definition fetch_hundred (u : string) : option Body :=
  if String.eqb u seed_url then Some hundred_hrefs else Some [].

(** The main task handles the seed and spawns the pool; then each worker
    in turn runs until it stops. *)
Definition sched_pool : list nat :=
  (repeat 0 300 ++ List.concat (map (fun j => repeat (S j) 120) (seq 0 NUM_CONCURRENT_REQUESTS)))%list.

(** A resumed run ([load_state]) whose saved frontier holds two entries of
    depth 4. *)
Definition deep_run : World :=
  start_crawl_init
    (load_state (Crawler_new None 0) (mkCrawlState [(seed_url, 4); (x_url, 4)] ∅)) 0.

(* ===================================================================== *)
(** ** Claims about the crawl *)

(** The claimed at-most-once fetch: under every schedule, each URL has at
    most one [fetch_page] call. *)
Definition fetch_at_most_once (fetch : string → option Body) (w0 : World) : Prop :=
  ∀ sched u, count_fetches u (log (run fetch sched w0)) ≤ 1.

(** C1 (counterexample): two workers pop the two frontier entries for [X]
    pushed by the seed page; both pass their read-only visited checks
    before either fetches, and [X] is fetched twice. *)
Lemma C1_double_fetch_race :
  ¬ fetch_at_most_once fetch_twice_linked seed_run.
Proof.
  intros H. specialize (H sched_race x_url). vm_compute in H. lia.
Qed.

(** C1 (amended): the visited check before the fetch is read-only and the
    insertion happens after the fetch, so a URL may be fetched more than
    once; the insertion itself is guarded by a re-check under the write
    lock, so along every schedule the visited set only grows and
    [pages_visited] equals the number of URLs added to it during the run:
    each URL is counted at most once. *)
Theorem C1_pages_visited_counts_each_url_once fetch c now sched :
  let w := run fetch sched (start_crawl_init c now) in
  visited c ⊆ visited (crawler w) ∧
  pages_visited (stats (crawler w)) + size (visited c) = size (visited (crawler w)).
Proof.
  apply visited_tracked_run. unfold visited_tracked; simpl. split; [done | lia].
Qed.

(** The claimed mark-before-fetch: every step that calls [fetch_page] for
    a URL is taken when that URL is already in the visited set. *)
Definition marked_before_fetch (fetch : string → option Body) (w0 : World) : Prop :=
  ∀ sched tid w' u,
    let w := run fetch sched w0 in
    step_world fetch tid w = Some w' →
    count_fetches u (log w) < count_fetches u (log w') →
    u ∈ visited (crawler w).

(** C2 (counterexample): the seed is fetched while it is not in the
    visited set; and when fetching [X] fails, [X] is left unvisited, so
    worker 0 alone pops the second entry for [X] and fetches it again. *)
Lemma C2_fetch_before_mark :
  ¬ marked_before_fetch fetch_twice_linked seed_run ∧
  count_fetches x_url (log (run fetch_x_fails sched_one_worker seed_run)) = 2.
Proof.
  split; [|vm_compute; reflexivity].
  intros H.
  assert (bool_decide (seed_url ∈ visited (crawler (run fetch_twice_linked [0; 0; 0] seed_run)))
          = false) as Hnot by (vm_compute; reflexivity).
  apply bool_decide_eq_false in Hnot. apply Hnot.
  eapply (H [0; 0; 0] 0).
  - vm_compute. reflexivity.
  - vm_compute. lia.
Qed.

(** An in-flight [process_page] call that holds a fetched body: its fetch
    is in the log and succeeded with that body. *)
Definition pm_fetched (fetch : string → option Body) (lg : list Event) (p : PP) : Prop :=
  match p with
  | PMark u _ body => EvFetch u ∈ lg ∧ fetch u = Some body
  | _ => True
  end.

Definition main_fetched fetch lg (pc : MainPC) : Prop :=
  match pc with MainPage p => pm_fetched fetch lg p | _ => True end.

Definition worker_fetched fetch lg (pc : WorkerPC) : Prop :=
  match pc with WPage _ p => pm_fetched fetch lg p | _ => True end.

(** Every URL added to the visited set since [v0] was fetched, successfully,
    earlier in the log. *)
Definition fetched_inv (fetch : string → option Body) (v0 : gset string) (w : World) : Prop :=
  (∀ u, u ∈ visited (crawler w) → u ∈ v0 ∨ (EvFetch u ∈ log w ∧ is_Some (fetch u))) ∧
  main_fetched fetch (log w) (main_pc w) ∧
  Forall (worker_fetched fetch (log w)) (workers w).

Lemma pm_fetched_app fetch lg evs p :
  pm_fetched fetch lg p → pm_fetched fetch (evs ++ lg)%list p.
Proof. destruct p; simpl; try done. intros [? ?]. split; [|done]. by apply elem_of_app; right. Qed.

Lemma worker_fetched_app fetch lg evs pc :
  worker_fetched fetch lg pc → worker_fetched fetch (evs ++ lg)%list pc.
Proof. destruct pc; simpl; try done. apply pm_fetched_app. Qed.

Lemma step_page_fetched fetch p c p' c' evs lg :
  step_page fetch p c = Some (p', c', evs) → pm_fetched fetch lg p →
  pm_fetched fetch (evs ++ lg)%list p' ∧
  ∀ u, u ∈ visited c' → u ∈ visited c ∨ (EvFetch u ∈ lg ∧ is_Some (fetch u)).
Proof.
  unfold step_page. destruct p; simpl; intros Hs Hp; repeat case_match; simplify_eq/=;
    try (split; [done | by left]).
  - split; [|by left]. split; [set_solver | done].
  - destruct Hp as [Hl Hf]. split; [done|]. intros v.
    case_bool_decide; simpl; [by left|].
    rewrite elem_of_union, elem_of_singleton. intros [->|Hv]; [right; split; [done | by eexists] | by left].
Qed.

Opaque step_page.

Lemma fetched_inv_step fetch v0 i w w' :
  fetched_inv fetch v0 w → step_world fetch i w = Some w' → fetched_inv fetch v0 w'.
Proof.
  destruct w as [c lg m ws]. unfold fetched_inv, step_world; simpl.
  intros (Hv & Hm & Hws) Hs. destruct i as [|j].
  - destruct m as [|p| | |]; simpl in *.
    + destruct (queue_pop (queue c)) as [[[u d] q]|]; simplify_eq/=; by split_and!.
    + destruct p; simplify_eq/=; try (by split_and!);
        destruct (step_page fetch _ c) as [[[p' c'] evs]|] eqn:Hp; simplify_eq/=;
        apply (step_page_fetched _ _ _ _ _ _ lg) in Hp as [Hp' Hc]; try done;
        (split_and!; [ intros u Hu; destruct (Hc u Hu) as [Hu'|[? ?]];
                       [destruct (Hv u Hu') as [?|[? ?]]; [by left | right; split; [by apply elem_of_app; right | done]]
                       | right; split; [by apply elem_of_app; right | done]]
                     | exact Hp'
                     | eapply Forall_impl; [exact Hws | intros; by apply worker_fetched_app]]).
    + simplify_eq/=. split_and!; [done | done |]. by repeat constructor.
    + destruct (forallb _ _); simplify_eq/=. by split_and!.
    + done.
  - destruct (ws !! j) as [pc|] eqn:Hj; [|done].
    assert (∀ pc' c' evs, worker_fetched fetch (evs ++ lg)%list pc' →
              (∀ u, u ∈ visited c' → u ∈ visited c ∨ (EvFetch u ∈ lg ∧ is_Some (fetch u))) →
              (∀ u, u ∈ visited c' → u ∈ v0 ∨ (EvFetch u ∈ (evs ++ lg)%list ∧ is_Some (fetch u))) ∧
              main_fetched fetch (evs ++ lg)%list m ∧
              Forall (worker_fetched fetch (evs ++ lg)%list) (<[j := pc']> ws)) as Hupd.
    { intros pc' c' evs Hpc' Hc. split_and!.
      - intros u Hu. destruct (Hc u Hu) as [Hu'|[? ?]].
        + destruct (Hv u Hu') as [?|[? ?]]; [by left | right; split; [by apply elem_of_app; right | done]].
        + right; split; [by apply elem_of_app; right | done].
      - destruct m; simpl in *; try done. by apply pm_fetched_app.
      - apply Forall_insert; [|done].
        eapply Forall_impl; [exact Hws | intros; by apply worker_fetched_app]. }
    destruct pc as [n|u d n|n p|n|]; simpl in Hs.
    + destruct (n <? MAX_PAGES_PER_WORKER)%nat;
        [destruct (queue_pop (queue c)) as [[[u d] q]|]|]; simplify_eq/=;
        first [apply (Hupd _ _ []) | apply (Hupd _ _ [EvSleep j])]; first [done | intros v Hu; by left].
    + case_bool_decide; simplify_eq/=; first [apply (Hupd _ _ []) | apply (Hupd _ _ [EvSleep j])]; first [done | intros v Hu; by left].
    + assert (pm_fetched fetch lg p) as Hpp.
      { by apply (Forall_lookup_1 _ _ _ _ Hws Hj). }
      destruct p; simplify_eq/=; try (first [apply (Hupd _ _ []) | apply (Hupd _ _ [EvSleep j])]; first [done | intros v Hu; by left]);
        destruct (step_page fetch _ c) as [[[p' c'] evs]|] eqn:Hp; simplify_eq/=;
        apply (step_page_fetched _ _ _ _ _ _ lg) in Hp as [Hp' Hc]; try done;
        apply Hupd; done.
    + simplify_eq/=. first [apply (Hupd _ _ []) | apply (Hupd _ _ [EvSleep j])]; first [done | intros v Hu; by left].
    + done.
Qed.

Transparent step_page.

Lemma fetched_inv_run fetch v0 sched w :
  fetched_inv fetch v0 w → fetched_inv fetch v0 (run fetch sched w).
Proof.
  revert w. induction sched as [|i sched IH]; intros w Hw; simpl; [done|].
  apply IH. destruct (step_world fetch i w) as [w'|] eqn:Hs; simpl; [|done].
  by eapply fetched_inv_step.
Qed.

Lemma run_cons_some fetch i sched w w' :
  step_world fetch i w = Some w' → run fetch (i :: sched) w = run fetch sched w'.
Proof. intros Hs. simpl. by rewrite Hs. Qed.

(** A worker holding a popped entry for an unvisited URL that passes depth
    and filter checks fetches it within its next four steps. *)
Lemma worker_refetch fetch w j u d n :
  workers w !! j = Some (WCheck u d n) →
  u ∉ visited (crawler w) → (d ≤ MAX_DEPTH)%nat → is_valid_url (url_filter (crawler w)) u = true →
  fetch u = None →
  log (run fetch [S j; S j; S j; S j] w) = EvFetch u :: log w.
Proof.
  destruct w as [c lg m ws]; cbn [crawler log workers main_pc]. intros Hj Hu Hd Hvalid Hf.
  assert (j < List.length ws)%nat as Hlt by (by eapply lookup_lt_Some).
  assert ((MAX_DEPTH <? d)%nat = false) as Hd' by (apply Nat.ltb_ge; lia).
  erewrite run_cons_some.
  2:{ unfold step_world. cbn [crawler log workers main_pc]. rewrite Hj. cbv beta iota.
      rewrite bool_decide_eq_false_2 by done. reflexivity. }
  erewrite run_cons_some.
  2:{ unfold step_world. cbn [crawler log workers main_pc].
      rewrite list_lookup_insert_eq by done. cbv beta iota delta [step_page].
      rewrite Hd', Hvalid. reflexivity. }
  erewrite run_cons_some.
  2:{ unfold step_world. cbn [crawler log workers main_pc].
      rewrite list_lookup_insert_eq by (by rewrite length_insert). cbv beta iota delta [step_page].
      rewrite bool_decide_eq_false_2 by done. reflexivity. }
  erewrite run_cons_some.
  2:{ unfold step_world. cbn [crawler log workers main_pc].
      rewrite list_lookup_insert_eq by (by rewrite !length_insert). cbv beta iota delta [step_page].
      rewrite Hf. reflexivity. }
  reflexivity.
Qed.

(** C2 (amended): the visited check before the fetch only reads the
    visited set and the URL is inserted after its fetch succeeds. Along
    every schedule of [start_crawl], every URL added to the visited set
    during the run was fetched in the run and its fetch succeeded; so a
    URL whose fetch fails is never marked, and whenever a worker pops a
    later frontier entry for it (within the depth and filter limits), its
    next four steps fetch the URL again. *)
Theorem C2_marked_only_after_successful_fetch fetch c now sched :
  let w := run fetch sched (start_crawl_init c now) in
  (∀ u, u ∈ visited (crawler w) → u ∉ visited c → EvFetch u ∈ log w ∧ is_Some (fetch u)) ∧
  (∀ j u d n, workers w !! j = Some (WCheck u d n) →
     fetch u = None → u ∉ visited c → (d ≤ MAX_DEPTH)%nat →
     is_valid_url (url_filter (crawler w)) u = true →
     count_fetches u (log (run fetch [S j; S j; S j; S j] w)) = S (count_fetches u (log w))).
Proof.
  intros w.
  assert (fetched_inv fetch (visited c) w) as (Hv & _ & _).
  { apply fetched_inv_run. unfold fetched_inv; simpl. split_and!; [by left | done | done]. }
  split.
  - intros u Hu Hc. by destruct (Hv u Hu) as [?|?].
  - intros j u d n Hj Hf Hc Hd Hval.
    assert (u ∉ visited (crawler w)) as Hu.
    { intros Hu. destruct (Hv u Hu) as [?|[_ [? Hs]]]; [done | congruence]. }
    rewrite (worker_refetch fetch w j u d n Hj Hu Hd Hval Hf).
    unfold count_fetches. cbn [List.filter]. rewrite String.eqb_refl. reflexivity.
Qed.

(** After the seed run, worker 0 alone: the fetch of [X] fails, and the
    worker then pops the second entry for [X]. *)
Definition sched_x_retry : list nat := (repeat 0 20 ++ repeat 1 8)%list.

Lemma C2_marked_only_after_successful_fetch_witness :
  workers (run fetch_x_fails sched_x_retry seed_run) !! 0 = Some (WCheck x_url 1 1) ∧
  count_fetches x_url (log (run fetch_x_fails sched_x_retry seed_run)) = 1 ∧
  count_fetches x_url (log (run fetch_x_fails [1; 1; 1; 1] (run fetch_x_fails sched_x_retry seed_run))) = 2.
Proof.
  assert (workers (run fetch_x_fails sched_x_retry seed_run) !! 0 = Some (WCheck x_url 1 1)) as Hj
    by (vm_compute; reflexivity).
  assert (count_fetches x_url (log (run fetch_x_fails sched_x_retry seed_run)) = 1) as Hc
    by (vm_compute; reflexivity).
  split; [exact Hj|]. split; [exact Hc|]. rewrite <- Hc.
  apply (proj2 (C2_marked_only_after_successful_fetch fetch_x_fails
                  (Crawler_new (Some seed_url) 0) 0 sched_x_retry) 0 x_url 1 1 Hj).
  - vm_compute. reflexivity.
  - apply (bool_decide_eq_false_1 (x_url ∈ visited (Crawler_new (Some seed_url) 0))). vm_compute. reflexivity.
  - unfold MAX_DEPTH. lia.
  - vm_compute. reflexivity.
Defined.

(** The claimed delay discipline: every rate-limit sleep belongs to an
    entry that reached a fetch, so along every schedule there are no more
    sleeps than fetches. *)
Definition delays_only_fetch_attempts (fetch : string → option Body) (w0 : World) : Prop :=
  ∀ sched, count_sleeps (log (run fetch sched w0)) ≤ count_all_fetches (log (run fetch sched w0)).

(** C3 (counterexample): in a resumed run, worker 0 pops an entry of depth
    4; [process_page] discards it without fetching, returns [Ok(())], and
    the worker sleeps. *)
Lemma C3_delay_after_depth_discard :
  ¬ delays_only_fetch_attempts fetch_twice_linked deep_run.
Proof.
  intros H. specialize (H (repeat 0 10 ++ repeat 1 10)%list). vm_compute in H. lia.
Qed.

(** Running a schedule from a step that succeeds. *)
Lemma run_step fetch tid sched w w' :
  step_world fetch tid w = Some w' → run fetch (tid :: sched) w = run fetch sched w'.
Proof. intros Hs. simpl. by rewrite Hs. Qed.

Ltac red_world :=
  cbn [run step_world default id workers crawler log main_pc queue_pop app
       set_queue queue visited url_filter].

(** C3 (amended): an entry dropped by the worker's own visited check
    (before [process_page]) costs no fetch, no sleep and no budget; an
    entry that [process_page] discards for its depth or the filter costs
    no fetch, but the worker still sleeps and counts it in its budget. *)
Theorem C3_discards_and_rate_limit fetch c lg m ws j n u d q
    (Hj : ws !! j = Some (WLoop n)) (Hn : n < MAX_PAGES_PER_WORKER)
    (Hq : queue c = (u, d) :: q) :
  (u ∈ visited c →
   run fetch [S j; S j] (mkWorld c lg m ws)
   = mkWorld (set_queue c q) lg m (<[j := WLoop n]> ws)) ∧
  (u ∉ visited c →
   (MAX_DEPTH < d ∨ is_valid_url (url_filter c) u = false) →
   run fetch (repeat (S j) 5) (mkWorld c lg m ws)
   = mkWorld (set_queue c q) (EvSleep j :: lg) m (<[j := WLoop (S n)]> ws)).
Proof.
  assert (j < List.length ws) by (eapply lookup_lt_Some; eauto).
  assert ((n <? MAX_PAGES_PER_WORKER)%nat = true) as Hn' by (apply Nat.ltb_lt; done).
  split.
  - intros Hu.
    rewrite (run_step _ _ _ _ (mkWorld (set_queue c q) lg m (<[j := WCheck u d n]> ws))).
    2: { red_world. by rewrite Hj, Hn', Hq. }
    rewrite (run_step _ _ _ _ (mkWorld (set_queue c q) lg m (<[j := WLoop n]> ws))).
    2: { red_world. rewrite list_lookup_insert_eq by done. red_world.
      rewrite bool_decide_eq_true_2 by done. red_world.
      by rewrite list_insert_insert_eq. }
    done.
  - intros Hu Hdisc. change (repeat (S j) 5) with [S j; S j; S j; S j; S j].
    rewrite (run_step _ _ _ _ (mkWorld (set_queue c q) lg m (<[j := WCheck u d n]> ws))).
    2: { red_world. by rewrite Hj, Hn', Hq. }
    rewrite (run_step _ _ _ _
               (mkWorld (set_queue c q) lg m (<[j := WPage n (PStart u d)]> ws))).
    2: { red_world. rewrite list_lookup_insert_eq by done. red_world.
      rewrite bool_decide_eq_false_2 by done. red_world.
      by rewrite list_insert_insert_eq. }
    rewrite (run_step _ _ _ _ (mkWorld (set_queue c q) lg m (<[j := WPage n PRet]> ws))).
    2: { red_world. rewrite list_lookup_insert_eq by done. red_world.
      assert (step_page fetch (PStart u d) (set_queue c q) = Some (PRet, set_queue c q, []))
        as ->.
      { unfold step_page. red_world. destruct Hdisc as [Hd | Hv].
        - by rewrite (proj2 (Nat.ltb_lt _ _) Hd).
        - rewrite Hv. by destruct (MAX_DEPTH <? d)%nat. }
      red_world. by rewrite list_insert_insert_eq. }
    rewrite (run_step _ _ _ _ (mkWorld (set_queue c q) lg m (<[j := WSleep (S n)]> ws))).
    2: { red_world. rewrite list_lookup_insert_eq by done. red_world.
      by rewrite list_insert_insert_eq. }
    rewrite (run_step _ _ _ _
               (mkWorld (set_queue c q) (EvSleep j :: lg) m (<[j := WLoop (S n)]> ws))).
    2: { red_world. rewrite list_lookup_insert_eq by done. red_world.
      by rewrite list_insert_insert_eq. }
    done.
Qed.




Lemma C3_discards_and_rate_limit_witness :
  [WLoop 0] !! 0 = Some (WLoop 0) ∧ 0 < MAX_PAGES_PER_WORKER ∧
  run fetch_twice_linked (repeat 1 5)
    (mkWorld (set_queue (crawler deep_run) [(x_url, 4)]) [] MainJoin [WLoop 0])
  = mkWorld (set_queue (set_queue (crawler deep_run) [(x_url, 4)]) [])
            [EvSleep 0] MainJoin [WLoop 1].
Proof.
  split; [reflexivity|]. split; [vm_compute; lia|].
  refine (proj2 (C3_discards_and_rate_limit fetch_twice_linked
                   (set_queue (crawler deep_run) [(x_url, 4)]) [] MainJoin [WLoop 0]
                   0 0 x_url 4 [] eq_refl _ eq_refl) _ _).
  - vm_compute. lia.
  - apply (bool_decide_eq_false_1 _). vm_compute. reflexivity.
  - left. vm_compute. lia.
Defined.

(** The claimed bound: under every schedule, [pages_visited] ends at most
    at pool size times per-worker budget. *)
Definition pages_within_pool_budget (fetch : string → option Body) (w0 : World) : Prop :=
  ∀ sched, pages_visited (stats (crawler (run fetch sched w0)))
           ≤ NUM_CONCURRENT_REQUESTS * MAX_PAGES_PER_WORKER.

(** C4 (counterexample): the seed page is processed by [start_crawl]
    itself before the pool is spawned, and each of the ten workers then
    visits ten of the hundred pages the seed links to: 101 pages. *)
Lemma C4_seed_page_exceeds_pool_budget :
  ¬ pages_within_pool_budget fetch_hundred seed_run ∧
  pages_visited (stats (crawler (run fetch_hundred sched_pool seed_run))) = 101.
Proof.
  assert (pages_visited (stats (crawler (run fetch_hundred sched_pool seed_run))) = 101)
    as Heq by (vm_compute; reflexivity).
  split; [|exact Heq].
  intros H. specialize (H sched_pool). rewrite Heq in H. vm_compute in H. lia.
Qed.

(** C4 (amended): from the start of [start_crawl], under every schedule,
    [pages_visited] stays at most [1 + pool size × per-worker budget]
    (the seed page handled by the main task, plus ten per worker); and a
    worker whose counter has reached the budget, or whose frontier is
    empty, stops at its next step. *)
Theorem C4_pages_visited_at_most_seed_plus_pool_budget fetch c now sched :
  pages_visited (stats (crawler (run fetch sched (start_crawl_init c now))))
    ≤ 1 + NUM_CONCURRENT_REQUESTS * MAX_PAGES_PER_WORKER ∧
  (∀ w j n, workers w !! j = Some (WLoop n) →
     (MAX_PAGES_PER_WORKER ≤ n ∨ queue (crawler w) = []) →
     step_world fetch (S j) w
     = Some (mkWorld (crawler w) (log w) (main_pc w) (<[j := WDone]> (workers w)))).
Proof.
  split.
  - assert (budget_inv (start_crawl_init c now)) as H0.
    { unfold budget_inv, start_crawl_init; simpl. split; [budget_lia|]. by split. }
    pose proof (budget_inv_run fetch sched _ H0) as (Hb & _ & _).
    unfold PAGE_BOUND in Hb. lia.
  - intros [c' lg m ws] j n Hj Hstop. simpl in *.
    unfold step_world; simpl. rewrite Hj. destruct Hstop as [Hn | Hq].
    + by rewrite (proj2 (Nat.ltb_ge _ _) Hn).
    + rewrite Hq. by destruct (n <? MAX_PAGES_PER_WORKER)%nat.
Qed.

(** C10: [get_state] pops every frontier entry, in frontier order, into
    the returned [CrawlState]; afterwards the frontier is empty, while the
    visited set (also copied into the state), the stats, the graph and the
    filter are unchanged. *)
Theorem C10_get_state_drains_frontier c :
  cs_queue (fst (get_state c)) = queue c ∧
  cs_visited (fst (get_state c)) = visited c ∧
  queue (snd (get_state c)) = [] ∧
  visited (snd (get_state c)) = visited c ∧
  stats (snd (get_state c)) = stats c ∧
  graph (snd (get_state c)) = graph c ∧
  url_filter (snd (get_state c)) = url_filter c.
Proof.
  unfold get_state. rewrite drain_queue_spec. simpl. done.
Qed.

(* ===================================================================== *)
(** ** Claims about the URL filter *)

(** [is_valid_url] is the conjunction of its checks: no fragment, a
    parsable URL, an allowed host, a path under an allowed prefix, no
    excluded pattern in the path, and every custom rule accepting. *)
Lemma is_valid_url_spec f url :
  is_valid_url f url = true ↔
  str_contains_char "#" url = false ∧
  ∃ u, url_parse url = Some u ∧
    default "" (url_host u) ∈ allowed_domains f ∧
    (∃ p, p ∈ path_prefixes f ∧ starts_with (url_path u) p = true) ∧
    (∀ r, r ∈ excluded_patterns f → regex_is_match r (url_path u) = false) ∧
    (∀ name rule, custom_rules f !! name = Some rule → rule url = true).
Proof.
  unfold is_valid_url.
  destruct (str_contains_char "#" url); [naive_solver|].
  destruct (url_parse url) as [u|]; [|naive_solver].
  case_bool_decide as Hd; simpl; [|naive_solver].
  destruct (existsb _ _) eqn:Hp; simpl.
  2:{ split; [done|]. intros (_ & u' & [= <-] & _ & (p & Hp' & Hs) & _).
      rewrite <- not_true_iff_false in Hp. exfalso. apply Hp, existsb_exists.
      exists p. split; [apply list_elem_of_In, elem_of_elements|]; done. }
  apply existsb_exists in Hp as (p & Hin & Hs).
  destruct (existsb (λ r, regex_is_match r (url_path u)) (excluded_patterns f)) eqn:He.
  { split; [done|]. intros (_ & u' & [= <-] & _ & _ & Hex & _).
    apply existsb_exists in He as (r & Hr & Hm).
    rewrite Hex in Hm; [done|]. by apply list_elem_of_In. }
  rewrite forallb_forall. split.
  - intros Hall. split; [done|]. exists u. split; [done|]. split; [done|]. split.
    { exists p. split; [apply elem_of_elements, list_elem_of_In|]; done. }
    split.
    + intros r Hr. destruct (regex_is_match r (url_path u)) eqn:Hm; [|done].
      rewrite <- not_true_iff_false in He. exfalso. apply He, existsb_exists.
      exists r. split; [apply list_elem_of_In|]; done.
    + intros name rule Hl. apply (Hall (name, rule)).
      by apply list_elem_of_In, elem_of_map_to_list.
  - intros (_ & u' & [= <-] & _ & _ & _ & Hrules) [name rule] Hkv.
    apply list_elem_of_In, elem_of_map_to_list in Hkv. simpl. by eapply Hrules.
Qed.

Definition example_talk : string := "https://example.org/wiki/Talk:Subject".
Definition example_subject : string := "https://example.org/wiki/Subject".
Definition en_talk : string := "https://en.wikipedia.org/wiki/Talk:Subject".
Definition en_subject : string := "https://en.wikipedia.org/wiki/Subject".

(** C8 (counterexample): the filter of the program is
    [URLFilter::default()], whose only allowed domain is
    [en.wikipedia.org]; it rejects [https://example.org/wiki/Subject]
    with no custom rule registered, and its domain check fails on both
    example.org URLs. *)
Lemma C8_example_org_rejected_by_domain :
  is_valid_url URLFilter_default example_subject = false ∧
  custom_rules URLFilter_default = ∅ ∧
  url_parse example_subject = Some (mkUrl "https" (Some "example.org") "/wiki/Subject") ∧
  "example.org" ∉ allowed_domains URLFilter_default.
Proof.
  split; [vm_compute; reflexivity|]. split; [reflexivity|].
  split; [vm_compute; reflexivity|].
  unfold URLFilter_default; simpl. rewrite elem_of_singleton. done.
Qed.

(** C8 (amended): the checks are applied conjunctively
    ([is_valid_url_spec]). With the program's filter ([default()], to which
    [add_custom_rule] adds only custom rules), the en.wikipedia.org URL
    [/wiki/Talk:Subject] passes the domain and path-prefix checks and is
    rejected by the excluded pattern [Talk:], while [/wiki/Subject] is
    accepted; the example.org pair behaves that way exactly under a filter
    whose allowed domain is example.org, with the default prefixes and
    patterns and no custom rules. *)
Theorem C8_filter_conjunction :
  (∀ f name rule,
     allowed_domains (add_custom_rule f name rule) = allowed_domains f ∧
     excluded_patterns (add_custom_rule f name rule) = excluded_patterns f ∧
     path_prefixes (add_custom_rule f name rule) = path_prefixes f) ∧
  (∃ u, url_parse en_talk = Some u ∧
     default "" (url_host u) ∈ allowed_domains URLFilter_default ∧
     (∃ p, p ∈ path_prefixes URLFilter_default ∧ starts_with (url_path u) p = true) ∧
     (∃ r, r ∈ excluded_patterns URLFilter_default ∧ regex_is_match r (url_path u) = true)) ∧
  is_valid_url URLFilter_default en_talk = false ∧
  is_valid_url URLFilter_default en_subject = true ∧
  (∀ f, allowed_domains f = {["example.org"]} →
        excluded_patterns f = INVALID_PATTERNS →
        path_prefixes f = {["/wiki/"]} →
        custom_rules f = ∅ →
        is_valid_url f example_talk = false ∧ is_valid_url f example_subject = true).
Proof.
  split; [done|]. split.
  { exists (mkUrl "https" (Some "en.wikipedia.org") "/wiki/Talk:Subject").
    split; [vm_compute; reflexivity|]. simpl.
    split; [by apply elem_of_singleton|].
    split; [exists "/wiki/"%string; split; [by apply elem_of_singleton | vm_compute; reflexivity]|].
    exists (mkRegex "Talk:"). split; [unfold INVALID_PATTERNS; simpl; set_solver | vm_compute; reflexivity]. }
  split; [vm_compute; reflexivity|]. split; [vm_compute; reflexivity|].
  intros [ad ex pp cr]; simpl; intros -> -> -> ->. split; vm_compute; reflexivity.
Qed.

(* ===================================================================== *)
(** ** PageRank (src/analytics.rs) *)

Definition DAMPING_FACTOR : float := 0.85%float.
Definition MAX_ITERATIONS : nat := 100.
Definition CONVERGENCE_THRESHOLD : float := 1e-8%float.

(** [n as f64] for a [usize]. *)
Definition f64_of_usize (n : nat) : float := PrimFloat.of_uint63 (Uint63.of_Z (Z.of_nat n)).

Record PageRankResults := mkPageRankResults {
  scores : gmap string float;
  iterations : nat;
  converged : bool
}.

Record Analytics := mkAnalytics {
  outbound_links : gmap string (list string);
  inbound_links : gmap string (list string)
}.

Definition Analytics_new : Analytics := mkAnalytics ∅ ∅.

(** [entry(k).or_insert_with(Vec::new).push(v)]. *)
Definition push_entry (m : gmap string (list string)) (k v : string) : gmap string (list string) :=
  <[k := (default [] (m !! k) ++ [v])%list]> m.

(** [Analytics::load_from_edges]. *)
Definition load_from_edges (a : Analytics) (edges : list (string * string)) : Analytics :=
  fold_left (fun a '(from, to) =>
               mkAnalytics (push_entry (outbound_links a) from to)
                           (push_entry (inbound_links a) to from))
            edges a.

(** [Vec::dedup]: drop consecutive repeats. *)
Fixpoint dedup (l : list string) : list string :=
  match l with
  | x :: ((y :: _) as l') => if String.eqb x y then dedup l' else x :: dedup l'
  | _ => l
  end.

(** A [HashMap]'s [keys()] come in an order fixed by its hasher, which the
    code does not control: [keys_of m] is that order, a permutation of the
    keys of [m]. *)
Definition KeyOrder : Type := gmap string (list string) → list string.

Definition canonical_keys : KeyOrder := fun m => map fst (map_to_list m).

Definition key_order_ok (keys_of : KeyOrder) : Prop :=
  ∀ m, keys_of m ≡ₚ canonical_keys m.

(** [Analytics::get_all_pages]: the keys of both maps, sorted
    ([Ord for String], byte-wise lexicographic) and deduplicated. *)
Definition get_all_pages (keys_of : KeyOrder) (a : Analytics) : list string :=
  dedup (merge_sort String.le (keys_of (outbound_links a) ++ keys_of (inbound_links a))%list).

Section PageRank.
Variable a : Analytics.
Variable num_pages : float.     (** [num_pages as f64] *)
Variable initial_score : float.

(** The new score of [page] from the snapshot [scores]: the inner loop
    over [inbound_links[page]]. *)
Definition page_score (scores : gmap string float) (page : string) : float :=
  fold_left
    (fun new_score source =>
       let source_score := default initial_score (scores !! source) in
       let source_outbound_count :=
         default 1%nat (List.length <$> outbound_links a !! source) in
       (new_score + DAMPING_FACTOR * source_score / f64_of_usize source_outbound_count)%float)
    (default [] (inbound_links a !! page))
    ((1.0 - DAMPING_FACTOR) / num_pages)%float.

(** One pass of the [for page in self.get_all_pages()] loop: the new
    scores and [total_diff]. *)
Fixpoint pagerank_pass (scores : gmap string float) (pages : list string)
    (new_scores : gmap string float) (total_diff : float) : gmap string float * float :=
  match pages with
  | [] => (new_scores, total_diff)
  | page :: rest =>
      let new_score := page_score scores page in
      let old_score := default initial_score (scores !! page) in
      pagerank_pass scores rest (<[page := new_score]> new_scores)
                    (total_diff + PrimFloat.abs (new_score - old_score))%float
  end.

(** The [while iterations < MAX_ITERATIONS] loop; [k] is the number of
    iterations left. *)
Fixpoint pagerank_loop (pages : list string) (k : nat) (iterations : nat)
    (scores : gmap string float) : gmap string float * nat * bool :=
  match k with
  | O => (scores, iterations, false)
  | S k' =>
      let '(new_scores, total_diff) := pagerank_pass scores pages ∅ 0%float in
      if (total_diff <? CONVERGENCE_THRESHOLD)%float then (scores, iterations, true)
      else pagerank_loop pages k' (S iterations) new_scores
  end.
(** The snapshot after [k] adopted iterations, from [s0]. *)
Definition pagerank_snapshot (pages : list string) (k : nat) (s0 : gmap string float)
  : gmap string float :=
  Nat.iter k (fun s => fst (pagerank_pass s pages ∅ 0%float)) s0.

(** The convergence test of the iteration that reads [s]. *)
Definition pass_converges (pages : list string) (s : gmap string float) : bool :=
  (snd (pagerank_pass s pages ∅ 0%float) <? CONVERGENCE_THRESHOLD)%float.
End PageRank.

(** [Analytics::calculate_pagerank]. *)
Definition calculate_pagerank (keys_of : KeyOrder) (a : Analytics) : PageRankResults :=
  let num_pages := f64_of_usize (List.length (get_all_pages keys_of a)) in
  let initial_score := (1.0 / num_pages)%float in
  let scores0 := fold_left (fun m page => <[page := initial_score]> m)
                           (get_all_pages keys_of a) ∅ in
  let '(scores, iterations, converged) :=
    pagerank_loop a num_pages initial_score (get_all_pages keys_of a)
                  MAX_ITERATIONS 0 scores0 in
  mkPageRankResults scores iterations converged.

(** The loop as the spec words it: an iteration that converges is counted
    among the iterations run, and its scores are the final ones. *)
Fixpoint pagerank_loop_as_specified (a : Analytics) (num_pages initial_score : float)
    (pages : list string) (k : nat) (iterations : nat)
    (scores : gmap string float) : gmap string float * nat * bool :=
  match k with
  | O => (scores, iterations, false)
  | S k' =>
      let '(new_scores, total_diff) :=
        pagerank_pass a num_pages initial_score scores pages ∅ 0%float in
      if (total_diff <? CONVERGENCE_THRESHOLD)%float then (new_scores, S iterations, true)
      else pagerank_loop_as_specified a num_pages initial_score pages k' (S iterations) new_scores
  end.

Definition calculate_pagerank_as_specified (keys_of : KeyOrder) (a : Analytics)
  : PageRankResults :=
  let num_pages := f64_of_usize (List.length (get_all_pages keys_of a)) in
  let initial_score := (1.0 / num_pages)%float in
  let scores0 := fold_left (fun m page => <[page := initial_score]> m)
                           (get_all_pages keys_of a) ∅ in
  let '(scores, iterations, converged) :=
    pagerank_loop_as_specified a num_pages initial_score (get_all_pages keys_of a)
                               MAX_ITERATIONS 0 scores0 in
  mkPageRankResults scores iterations converged.

Definition edges_AB : list (string * string) := [("A", "B")]%string.

(* ===================================================================== *)
(** ** Claims about PageRank *)

Lemma pagerank_pass_lookup a N init s pages ns td p :
  fst (pagerank_pass a N init s pages ns td) !! p
  = if bool_decide (p ∈ pages) then Some (page_score a N init s p) else ns !! p.
Proof.
  revert ns td. induction pages as [|q pages IH]; intros ns td; simpl.
  - done.
  - rewrite IH. case_bool_decide as Hin; case_bool_decide as Hin'.
    + done.
    + exfalso. apply Hin'. by apply elem_of_cons; right.
    + apply elem_of_cons in Hin' as [->|]; [|done].
      by rewrite lookup_insert_eq.
    + rewrite lookup_insert_ne; [done|]. intros ->. apply Hin'. by apply elem_of_cons; left.
Qed.

Lemma pagerank_loop_spec a N init pages k it s s' it' c :
  pagerank_loop a N init pages k it s = (s', it', c) →
  (c = true ∧ ∃ j, j < k ∧ it' = it + j ∧
     s' = pagerank_snapshot a N init pages j s ∧
     pass_converges a N init pages (pagerank_snapshot a N init pages j s) = true ∧
     ∀ i, i < j → pass_converges a N init pages (pagerank_snapshot a N init pages i s) = false) ∨
  (c = false ∧ it' = it + k ∧ s' = pagerank_snapshot a N init pages k s ∧
     ∀ i, i < k → pass_converges a N init pages (pagerank_snapshot a N init pages i s) = false).
Proof.
  revert it s. induction k as [|k IH]; intros it s; cbn [pagerank_loop].
  - intros [= <- <- <-]. right. split; [done|]. split; [lia|]. split; [done|]. lia.
  - destruct (pagerank_pass a N init s pages ∅ 0%float) as [ns td] eqn:Hp.
    destruct (td <? CONVERGENCE_THRESHOLD)%float eqn:Hc.
    + intros [= <- <- <-]. left. split; [done|]. exists 0. split; [lia|].
      split; [lia|]. split; [done|]. split; [|lia].
      unfold pass_converges. simpl. by rewrite Hp.
    + intros Hl. assert (pass_converges a N init pages s = false) as Hc0.
      { unfold pass_converges. by rewrite Hp. }
      assert (∀ i, pagerank_snapshot a N init pages (S i) s
                   = pagerank_snapshot a N init pages i ns) as Hsh.
      { intros i. unfold pagerank_snapshot. rewrite Nat.iter_succ_r. by rewrite Hp. }
      destruct (IH _ _ Hl) as [(-> & j & Hj & -> & -> & Hcj & Hlt) | (-> & -> & -> & Hlt)].
      * left. split; [done|]. exists (S j). split; [lia|]. split; [lia|].
        rewrite !Hsh. split; [done|]. split; [done|].
        intros [|i] Hi; [done|]. rewrite Hsh. apply Hlt. lia.
      * right. split; [done|]. split; [lia|]. rewrite Hsh. split; [done|].
        intros [|i] Hi; [done|]. rewrite Hsh. apply Hlt. lia.
Qed.

(** C5 (counterexample): on the edge [A → B] the third iteration is the
    first whose total change is below the threshold; the code returns the
    scores adopted before it and reports 2 iterations, where counting the
    iterations run, converging one included, gives 3. *)
Lemma C5_converging_iteration_not_counted :
  calculate_pagerank canonical_keys (load_from_edges Analytics_new edges_AB)
  ≠ calculate_pagerank_as_specified canonical_keys (load_from_edges Analytics_new edges_AB) ∧
  iterations (calculate_pagerank canonical_keys (load_from_edges Analytics_new edges_AB)) = 2 ∧
  converged (calculate_pagerank canonical_keys (load_from_edges Analytics_new edges_AB)) = true ∧
  iterations (calculate_pagerank_as_specified canonical_keys
                (load_from_edges Analytics_new edges_AB)) = 3.
Proof.
  split.
  - intros H. apply (f_equal iterations) in H. vm_compute in H. discriminate.
  - vm_compute. auto.
Qed.

(** C5 (amended): every iteration computes, for every page, its score
    from the prior snapshot by the formula of [page_score] (the inbound
    sources in order, [(1-d)/N] plus [d * score(s) / outdegree(s)] for
    each), and no other entry. The result is either converged: the
    snapshot adopted after [iterations] iterations, the next iteration
    (computed, not counted, its scores dropped) being the first whose total
    change is below [1e-8]; or not converged: the snapshot after 100
    iterations, none of which converged. *)
Theorem C5_pagerank_iterations_and_stop keys_of a :
  let pages := get_all_pages keys_of a in
  let N := f64_of_usize (List.length pages) in
  let init := (1.0 / N)%float in
  let s0 := fold_left (fun m page => <[page := init]> m) pages ∅ in
  let r := calculate_pagerank keys_of a in
  (∀ s p, fst (pagerank_pass a N init s pages ∅ 0%float) !! p
          = if bool_decide (p ∈ pages) then Some (page_score a N init s p) else None) ∧
  ((converged r = true ∧ iterations r < MAX_ITERATIONS ∧
    scores r = pagerank_snapshot a N init pages (iterations r) s0 ∧
    pass_converges a N init pages (pagerank_snapshot a N init pages (iterations r) s0) = true ∧
    ∀ i, i < iterations r →
      pass_converges a N init pages (pagerank_snapshot a N init pages i s0) = false) ∨
   (converged r = false ∧ iterations r = MAX_ITERATIONS ∧
    scores r = pagerank_snapshot a N init pages MAX_ITERATIONS s0 ∧
    ∀ i, i < MAX_ITERATIONS →
      pass_converges a N init pages (pagerank_snapshot a N init pages i s0) = false)).
Proof.
  intros pages N init s0 r. split.
  { intros s p. by rewrite pagerank_pass_lookup, lookup_empty. }
  unfold r, calculate_pagerank. fold pages N init s0.
  destruct (pagerank_loop a N init pages MAX_ITERATIONS 0 s0) as [[s it] c] eqn:Hl.
  simpl. apply pagerank_loop_spec in Hl.
  destruct Hl as [(-> & j & Hj & -> & -> & Hc & Hlt) | (-> & -> & -> & Hlt)].
  - left. done.
  - right. done.
Qed.

Lemma merge_sort_perm_eq (l1 l2 : list string) :
  l1 ≡ₚ l2 → merge_sort String.le l1 = merge_sort String.le l2.
Proof.
  intros Hp. apply (Sorted_unique String.le).
  1,2: apply Sorted_merge_sort; exact String.le_total.
  eapply Permutation_trans; [apply merge_sort_Permutation|].
  eapply Permutation_trans; [exact Hp|].
  apply Permutation_sym, merge_sort_Permutation.
Qed.

Lemma get_all_pages_key_order keys_of1 keys_of2 a :
  key_order_ok keys_of1 → key_order_ok keys_of2 →
  get_all_pages keys_of1 a = get_all_pages keys_of2 a.
Proof.
  intros H1 H2. unfold get_all_pages. f_equal. apply merge_sort_perm_eq.
  by rewrite (H1 (outbound_links a)), (H1 (inbound_links a)),
             (H2 (outbound_links a)), (H2 (inbound_links a)).
Qed.

(** C6: the PageRank engine is a function of the edge list: two runs over
    the same edge list, whatever order their hash maps enumerate keys in,
    yield the same scores, the same iteration count and the same converged
    flag. *)
Theorem C6_pagerank_deterministic edges keys_of1 keys_of2
    (H1 : key_order_ok keys_of1) (H2 : key_order_ok keys_of2) :
  calculate_pagerank keys_of1 (load_from_edges Analytics_new edges)
  = calculate_pagerank keys_of2 (load_from_edges Analytics_new edges).
Proof.
  unfold calculate_pagerank. by rewrite (get_all_pages_key_order keys_of1 keys_of2).
Qed.

Lemma C6_pagerank_deterministic_witness :
  key_order_ok canonical_keys ∧
  key_order_ok (fun m => reverse (canonical_keys m)) ∧
  calculate_pagerank canonical_keys (load_from_edges Analytics_new edges_AB)
  = calculate_pagerank (fun m => reverse (canonical_keys m))
                       (load_from_edges Analytics_new edges_AB).
Proof.
  split; [intros m; reflexivity|]. split; [intros m; apply reverse_Permutation|].
  apply (C6_pagerank_deterministic edges_AB canonical_keys (fun m => reverse (canonical_keys m))).
  - intros m. reflexivity.
  - intros m. apply reverse_Permutation.
Defined.

(* ===================================================================== *)
(** ** PathFinder (src/pathfinder.rs) *)

Record PathFinder := mkPathFinder {
  adjacency_list : gmap string (list string)
}.

Definition PathFinder_new : PathFinder := mkPathFinder ∅.

(** [PathFinder::add_edge]: [from → to], then [to → from]. *)
Definition add_edge (pf : PathFinder) (from to : string) : PathFinder :=
  mkPathFinder (push_entry (push_entry (adjacency_list pf) from to) to from).

Definition add_edges (pf : PathFinder) (edges : list (string * string)) : PathFinder :=
  fold_left (fun pf '(from, to) => add_edge pf from to) edges pf.

(** The [anyhow!] errors of [find_shortest_path]. [BfsOutOfFuel] is the
    model's own: the fuel bounds the number of queue pops, and
    [bfs_fuel_enough] shows it is never reached. *)
Inductive PathError :=
| StartNotFound
| EndNotFound
| NoPathFound
| ReconstructFailed
| BfsOutOfFuel.

Inductive Result (A : Type) :=
| Ok (x : A)
| Err (e : PathError).
Arguments Ok {A} x.
Arguments Err {A} e.

(** The [while current != start] loop of [reconstruct_path], following
    [came_from] at most [fuel] times ([reconstruct_path] gives it
    [size came_from]; running out is reported as the [None] of [?]). *)
Fixpoint reconstruct_loop (came_from : gmap string string) (start : string)
    (fuel : nat) (current : string) (path : list string) : option (list string) :=
  if String.eqb current start then Some path else
  match fuel with
  | O => None
  | S fuel' =>
      match came_from !! current with
      | None => None
      | Some prev => reconstruct_loop came_from start fuel' prev (path ++ [prev])%list
      end
  end.

(** [PathFinder::reconstruct_path]. *)
Definition reconstruct_path (came_from : gmap string string) (start end_ : string)
  : option (list string) :=
  if negb (bool_decide (is_Some (came_from !! end_))) then None else
  match reconstruct_loop came_from start (size came_from) end_ [end_] with
  | Some path => Some (reverse path)
  | None => None
  end.

(** The [for next in neighbors] loop. *)
Definition visit_neighbors (current : string) (neighbors : list string)
    (st : list string * gset string * gmap string string)
  : list string * gset string * gmap string string :=
  fold_left (fun '(queue, visited, came_from) next =>
               if bool_decide (next ∈ visited) then (queue, visited, came_from)
               else ((queue ++ [next])%list, {[next]} ∪ visited, <[next := current]> came_from))
            neighbors st.

(** The [while let Some(current) = queue.pop_front()] loop, for at most
    [fuel] pops. *)
Fixpoint bfs (adj : gmap string (list string)) (start end_ : string) (fuel : nat)
    (queue : list string) (visited : gset string) (came_from : gmap string string)
  : Result (list string) :=
  match fuel with
  | O => Err BfsOutOfFuel
  | S fuel' =>
      match queue with
      | [] => Err NoPathFound
      | current :: queue' =>
          if String.eqb current end_ then
            match reconstruct_path came_from start end_ with
            | Some path => Ok path
            | None => Err ReconstructFailed
            end
          else
            let '(queue'', visited', came_from') :=
              visit_neighbors current (default [] (adj !! current)) (queue', visited, came_from) in
            bfs adj start end_ fuel' queue'' visited' came_from'
      end
  end.

(** Every node ever queued is [start] or in some adjacency list, and each
    is queued once: [2 + ] the total length of the lists bounds the pops. *)
Definition bfs_fuel (adj : gmap string (list string)) : nat :=
  S (S (List.length (List.concat (map snd (map_to_list adj))))).

(** [PathFinder::find_shortest_path]. *)
Definition find_shortest_path (pf : PathFinder) (start end_ : string) : Result (list string) :=
  let adj := adjacency_list pf in
  if negb (bool_decide (is_Some (adj !! start))) then Err StartNotFound
  else if negb (bool_decide (is_Some (adj !! end_))) then Err EndNotFound
  else bfs adj start end_ (bfs_fuel adj) [start] {[start]} ∅.

(** The six orderings of a three-element list. *)
Definition perms3 {A} (x y z : A) : list (list A) :=
  [[x; y; z]; [x; z; y]; [y; x; z]; [y; z; x]; [z; x; y]; [z; y; x]].

(** The 48 edge lists of the chain A–B–C–D: its three edges, each in
    either direction, in any order. *)
Definition chain_edge_lists : list (list (string * string)) :=
  e1 ← [("A", "B"); ("B", "A")]%string;
  e2 ← [("B", "C"); ("C", "B")]%string;
  e3 ← [("C", "D"); ("D", "C")]%string;
  perms3 e1 e2 e3.

(* ===================================================================== *)
(** ** Claims about the path finder *)

(** [y] is a neighbour of [x] in the adjacency. *)
Definition adj_edge (adj : gmap string (list string)) (x y : string) : Prop :=
  y ∈ default [] (adj !! x).

(** [start] and every node of an adjacency list: all that BFS can queue. *)
Definition bfs_universe (adj : gmap string (list string)) (start : string) : gset string :=
  {[start]} ∪ list_to_set (List.concat (map snd (map_to_list adj))).

Lemma size_list_to_set_le (l : list string) :
  size (list_to_set (C := gset string) l) ≤ List.length l.
Proof.
  induction l as [|x l IH].
  - rewrite list_to_set_nil, size_empty. simpl. lia.
  - rewrite list_to_set_cons, size_union_alt, size_singleton.
    pose proof (subseteq_size (list_to_set (C := gset string) l ∖ {[x]}) (list_to_set l)
                  ltac:(set_solver)). simpl. lia.
Qed.

Lemma size_difference_step (U V : gset string) n :
  n ∈ U → n ∉ V → size (U ∖ ({[n]} ∪ V)) + 1 = size (U ∖ V).
Proof.
  intros HU HV.
  assert (U ∖ V = {[n]} ∪ U ∖ ({[n]} ∪ V)) as ->.
  { apply leibniz_equiv. intros x. rewrite !elem_of_union, !elem_of_difference,
      elem_of_union, !elem_of_singleton. destruct (decide (x = n)); naive_solver. }
  rewrite (size_union (C := gset string) {[n]} (U ∖ ({[n]} ∪ V))); [rewrite size_singleton; lia|]. set_solver.
Qed.

Lemma visit_neighbors_spec (U : gset string) current ns q vis cf q' vis' cf' :
  (∀ n, n ∈ ns → n ∈ U) →
  visit_neighbors current ns (q, vis, cf) = (q', vis', cf') →
  List.length q' + size (U ∖ vis') = List.length q + size (U ∖ vis) ∧
  (∀ x, x ∈ q' → x ∈ q ∨ x ∈ ns).
Proof.
  unfold visit_neighbors. revert q vis cf.
  induction ns as [|n ns IH]; intros q vis cf HU; simpl.
  - intros [= -> -> ->]. naive_solver.
  - case_bool_decide as Hn.
    + intros Hf. destruct (IH q vis cf ltac:(set_solver) Hf) as [Hs Hq].
      split; [done|]. intros x Hx. destruct (Hq x Hx); set_solver.
    + intros Hf. destruct (IH _ _ _ ltac:(set_solver) Hf) as [Hs Hq].
      pose proof (size_difference_step U vis n ltac:(set_solver) Hn).
      rewrite length_app in Hs. simpl in Hs. split; [lia|].
      intros x Hx. destruct (Hq x Hx) as [Hx'|]; [|set_solver].
      apply elem_of_app in Hx' as [|Hx'%list_elem_of_singleton]; set_solver.
Qed.

Lemma neighbors_in_universe adj start current n :
  n ∈ default [] (adj !! current) → n ∈ bfs_universe adj start.
Proof.
  intros Hn. unfold bfs_universe. apply elem_of_union_r, elem_of_list_to_set.
  destruct (adj !! current) as [ns|] eqn:Hc; simpl in Hn; [|by apply not_elem_of_nil in Hn].
  apply list_elem_of_In, in_concat. exists ns. split; [|by apply list_elem_of_In].
  apply in_map_iff. exists (current, ns). split; [done|].
  apply list_elem_of_In, elem_of_map_to_list. done.
Qed.

(** Every queued node is reachable from [start], and the measure [queue
    length + unvisited nodes] falls by one per pop: with more fuel than the
    measure, a BFS that cannot reach [end_] ends with [NoPathFound]. *)
Lemma bfs_no_path adj start end_ fuel queue visited cf :
  ¬ rtc (adj_edge adj) start end_ →
  Forall (rtc (adj_edge adj) start) queue →
  List.length queue + size (bfs_universe adj start ∖ visited) < fuel →
  bfs adj start end_ fuel queue visited cf = Err NoPathFound.
Proof.
  revert queue visited cf. induction fuel as [|fuel IH]; intros queue visited cf Hno Hq Hf;
    [lia|]. simpl.
  destruct queue as [|current queue]; [done|].
  apply Forall_cons in Hq as [Hc Hq].
  destruct (String.eqb_spec current end_) as [->|Hne]; [done|].
  destruct (visit_neighbors current (default [] (adj !! current)) (queue, visited, cf))
    as [[q' vis'] cf'] eqn:Hv.
  destruct (visit_neighbors_spec (bfs_universe adj start) _ _ _ _ _ _ _ _
              (neighbors_in_universe adj start current) Hv) as [Hs Hin].
  apply IH; [done| |simpl in Hf; lia].
  apply Forall_forall. intros x Hx. destruct (Hin x Hx) as [Hx'|Hx'].
  - by eapply Forall_forall.
  - eapply rtc_r; [exact Hc|]. exact Hx'.
Qed.

Lemma bfs_fuel_enough adj start :
  List.length [start] + size (bfs_universe adj start ∖ {[start]}) < bfs_fuel adj.
Proof.
  unfold bfs_fuel, bfs_universe. simpl.
  pose proof (size_list_to_set_le (List.concat (map snd (map_to_list adj)))).
  pose proof (subseteq_size (({[start]} ∪ list_to_set (List.concat (map snd (map_to_list adj))))
                              ∖ {[start]} : gset string)
                            (list_to_set (List.concat (map snd (map_to_list adj))))
                            ltac:(set_solver)).
  lia.
Qed.

Definition is_not_found (e : PathError) : bool :=
  match e with
  | StartNotFound | EndNotFound | NoPathFound => true
  | ReconstructFailed | BfsOutOfFuel => false
  end.

Lemma chain_results :
  map (fun es => find_shortest_path (add_edges PathFinder_new es) "A" "D") chain_edge_lists
  = repeat (Ok ["A"; "B"; "C"; "D"]%string) 48.
Proof. vm_compute. reflexivity. Qed.

(** C7: for each of the 48 edge lists of the chain A–B–C–D (each edge in
    either direction, in any order), [find_shortest_path(A, D)] returns
    [A, B, C, D]; and when an endpoint is not a key of the adjacency, or
    [end_] is not reachable from [start] along it, the result is one of
    the not-found errors ([Start page not found], [End page not found],
    [No path found]). *)
Theorem C7_find_shortest_path_chain_and_not_found :
  List.length chain_edge_lists = 48 ∧
  Forall (fun es => find_shortest_path (add_edges PathFinder_new es) "A" "D"
                    = Ok ["A"; "B"; "C"; "D"]%string) chain_edge_lists ∧
  (∀ pf start end_,
     adjacency_list pf !! start = None ∨ adjacency_list pf !! end_ = None ∨
     ¬ rtc (adj_edge (adjacency_list pf)) start end_ →
     ∃ e, find_shortest_path pf start end_ = Err e ∧ is_not_found e = true).
Proof.
  split; [reflexivity|]. split.
  { apply Forall_forall. intros es Hes%list_elem_of_In.
    apply (in_map (fun es => find_shortest_path (add_edges PathFinder_new es) "A" "D")) in Hes.
    rewrite chain_results in Hes. by apply repeat_spec in Hes. }
  intros pf start end_ Hcase. unfold find_shortest_path. cbv zeta.
  destruct (adjacency_list pf !! start) as [ls|] eqn:Hs.
  2: { rewrite bool_decide_eq_false_2 by (intros [? ?]; done). by exists StartNotFound. }
  rewrite bool_decide_eq_true_2 by eauto. cbn [negb].
  destruct (adjacency_list pf !! end_) as [le|] eqn:He.
  2: { rewrite bool_decide_eq_false_2 by (intros [? ?]; done). by exists EndNotFound. }
  rewrite bool_decide_eq_true_2 by eauto. cbn [negb].
  destruct Hcase as [[=] | [[=] | Hno]].
  exists NoPathFound. split; [|done].
  apply bfs_no_path; [done| |apply bfs_fuel_enough].
  constructor; [apply rtc_refl | constructor].
Qed.

(** C9: querying a node of the adjacency against itself fails with
    [Failed to reconstruct path]: the first node popped is the end, and
    [came_from] is still empty, so [reconstruct_path] finds no entry for
    it. *)
Theorem C9_self_query_reconstruct_fails pf u (Hu : is_Some (adjacency_list pf !! u)) :
  find_shortest_path pf u u = Err ReconstructFailed.
Proof.
  unfold find_shortest_path. cbv zeta.
  rewrite bool_decide_eq_true_2 by done. cbn [negb].
  unfold bfs_fuel. cbn [bfs]. rewrite String.eqb_refl.
  unfold reconstruct_path. rewrite lookup_empty, bool_decide_eq_false_2; [done|].
  by intros [? ?].
Qed.

Lemma C9_self_query_reconstruct_fails_witness :
  is_Some (adjacency_list (add_edges PathFinder_new [("A", "B")]%string) !! "A"%string) ∧
  find_shortest_path (add_edges PathFinder_new [("A", "B")]%string) "A" "A" = Err ReconstructFailed.
Proof.
  assert (is_Some (adjacency_list (add_edges PathFinder_new [("A", "B")]%string) !! "A"%string))
    as Hu by (vm_compute; eexists; reflexivity).
  split; [exact Hu|]. exact (C9_self_query_reconstruct_fails _ _ Hu).
Defined.


(** [Crawler::add_custom_url_rule]: [add_custom_rule] on the shared filter. *)
Definition add_custom_url_rule (c : Crawler) (name : string) (rule : string -> bool) : Crawler :=
  mkCrawler (queue c) (visited c) (stats c) (graph c) (add_custom_rule (url_filter c) name rule).

(** [main]'s rule ["exclude_years"]: [!url.matches(r"/wiki/\d{4}$").next().is_some()].
    The argument of [str::matches] is a [&str] pattern, which is searched
    for as literal text; the iterator has a first element exactly when
    that text occurs in [url]. *)
Definition exclude_years (url : string) : bool :=
  negb (str_contains url "/wiki/\d{4}$").

Definition MONTHS : list string :=
  ["January"; "February"; "March"; "April"; "May"; "June";
   "July"; "August"; "September"; "October"; "November"; "December"].

(** [main]'s rule ["exclude_dates"]. *)
Definition exclude_dates (url : string) : bool :=
  negb (existsb (fun month => str_contains url ("/wiki/" ++ month ++ "_")) MONTHS).

Definition main_start_url : string := "https://en.wikipedia.org/wiki/Rust_(programming_language)".

(** The crawler [main] builds before [start_crawl]: [Crawler::new], the
    saved state loaded when [state::load_state] succeeds, then the two
    custom rules. *)
Definition main_crawler (saved : option CrawlState) (now : nat) : Crawler :=
  let c := Crawler_new (Some main_start_url) now in
  let c := match saved with Some st => load_state c st | None => c end in
  let c := add_custom_url_rule c "exclude_years" exclude_years in
  add_custom_url_rule c "exclude_dates" exclude_dates.

(** [format!("https://en.wikipedia.org{}", href)]. *)
Definition full_url (href : string) : string := ("https://en.wikipedia.org" ++ href)%string.

Lemma main_crawler_filter saved now :
  url_filter (main_crawler saved now) =
  add_custom_rule (add_custom_rule URLFilter_default "exclude_years" exclude_years)
                  "exclude_dates" exclude_dates.
Proof. by destruct saved. Qed.


Lemma prefix_nondigit c n s :
  is_digit c = false → str_forallb is_digit s = true → String.prefix (String c n) s = false.
Proof.
  intros Hc Hs. destruct s as [|a s]; [done|]. simpl in *.
  destruct (Ascii.ascii_dec c a) as [->|]; [|done].
  apply andb_prop in Hs as [Ha _]. congruence.
Qed.

Lemma str_contains_digits c n s :
  is_digit c = false → str_forallb is_digit s = true → str_contains s (String c n) = false.
Proof.
  intros Hc. induction s as [|a s IH]; intros Hs; [done|].
  cbn [str_contains]. rewrite (prefix_nondigit c n (String a s)) by done.
  apply IH. simpl in Hs. by apply andb_prop in Hs as [_ ?].
Qed.

Lemma str_contains_char_digits c s :
  is_digit c = false → str_forallb is_digit s = true → str_contains_char c s = false.
Proof.
  intros Hc. induction s as [|a s IH]; intros Hs; [done|].
  simpl in *. apply andb_prop in Hs as [Ha Hs].
  destruct (Ascii.eqb_spec c a) as [->|]; [congruence|]. auto.
Qed.

Lemma split_at_none stop s :
  str_forallb (fun c => negb (stop c)) s = true → split_at stop s = (s, EmptyString).
Proof.
  induction s as [|a s IH]; intros Hs; [done|].
  simpl in *. apply andb_prop in Hs as [Ha Hs].
  destruct (stop a); [done|]. by rewrite IH.
Qed.

Lemma str_forallb_impl (P Q : ascii → bool) s :
  (∀ c, P c = true → Q c = true) → str_forallb P s = true → str_forallb Q s = true.
Proof.
  intros HPQ. induction s as [|a s IH]; [done|]. simpl.
  intros [Ha Hs]%andb_prop. rewrite HPQ, IH; done.
Qed.

Lemma url_parse_wiki_digits s :
  str_forallb is_digit s = true →
  url_parse ("https://en.wikipedia.org/wiki/" ++ s)%string =
  Some (mkUrl "https" (Some "en.wikipedia.org") ("/wiki/" ++ s)%string).
Proof.
  intros Hs. unfold url_parse. simpl.
  rewrite split_at_none.
  - reflexivity.
  - eapply str_forallb_impl; [|exact Hs].
    intros c Hc. destruct (Ascii.eqb_spec c "?"); [subst; discriminate|].
    destruct (Ascii.eqb_spec c "#"); [subst; discriminate|]. done.
Qed.

Ltac digits_contains :=
  cbv [String.append]; simpl;
  repeat first [ rewrite str_contains_digits by (done || reflexivity)
               | rewrite prefix_nondigit by (done || reflexivity) ];
  reflexivity.

(** X2: The filter that main builds (default filter plus the exclude_years and exclude_dates rules) accepts every en.wikipedia.org article whose title is made of digits only, such as the year page /wiki/1999: exclude_years passes its pattern to str::matches as literal text, not as a regex, so it does not reject these pages. *)
Theorem main_filter_keeps_digit_pages saved now s
  (Hs : str_forallb is_digit s = true) :
  is_valid_url (url_filter (main_crawler saved now))
               ("https://en.wikipedia.org/wiki/" ++ s)%string = true.
Proof.
  rewrite main_crawler_filter. apply is_valid_url_spec. split.
  { simpl. apply str_contains_char_digits; [reflexivity | done]. }
  exists (mkUrl "https" (Some "en.wikipedia.org") ("/wiki/" ++ s)%string).
  split; [by apply url_parse_wiki_digits|]. simpl.
  split; [by apply elem_of_singleton|].
  split; [exists "/wiki/"%string; split; [by apply elem_of_singleton | destruct s; reflexivity]|].
  split.
  - intros r Hr. unfold INVALID_PATTERNS in Hr. simpl in Hr.
    repeat (apply elem_of_cons in Hr as [->|Hr]; [unfold regex_is_match; simpl; digits_contains|]).
    by apply elem_of_nil in Hr.
  - intros name rule Hl. simpl in Hl.
    apply lookup_insert_Some in Hl as [[_ <-]|[_ Hl]].
    + unfold exclude_dates. simpl. digits_contains.
    + apply lookup_insert_Some in Hl as [[_ <-]|[_ Hl]]; [|done].
      unfold exclude_years. digits_contains.
Qed.

(** X3: The filter that main builds rejects every URL that contains /wiki/ followed by a month name and an underscore (a date page such as /wiki/March_15). *)
Theorem main_filter_rejects_date_pages saved now month url
  (Hm : month ∈ MONTHS)
  (Hc : str_contains url ("/wiki/" ++ month ++ "_")%string = true) :
  is_valid_url (url_filter (main_crawler saved now)) url = false.
Proof.
  destruct (is_valid_url _ url) eqn:E; [|done].
  apply is_valid_url_spec in E as (_ & u & _ & _ & _ & _ & Hr).
  specialize (Hr "exclude_dates"%string exclude_dates).
  rewrite main_crawler_filter in Hr. simpl in Hr. rewrite lookup_insert_eq in Hr.
  specialize (Hr eq_refl). unfold exclude_dates in Hr.
  enough (existsb (fun month => str_contains url ("/wiki/" ++ month ++ "_")) MONTHS = true)
    as He by (rewrite He in Hr; done).
  apply existsb_exists. exists month. split; [by apply list_elem_of_In|done].
Qed.

Lemma main_filter_rejects_date_pages_witness :
  ("January" ∈ MONTHS ∧
   str_contains "https://en.wikipedia.org/wiki/January_1" ("/wiki/" ++ "January" ++ "_") = true) ∧
  is_valid_url (url_filter (main_crawler None 0)) "https://en.wikipedia.org/wiki/January_1" = false.
Proof.
  split; [split; [unfold MONTHS; constructor | vm_compute; reflexivity]|].
  apply (main_filter_rejects_date_pages None 0 "January"); [unfold MONTHS; constructor | vm_compute; reflexivity].
Defined.

Lemma main_filter_keeps_digit_pages_witness :
  str_forallb is_digit "1999" = true ∧
  is_valid_url (url_filter (main_crawler None 0)) "https://en.wikipedia.org/wiki/1999" = true.
Proof.
  split; [reflexivity|].
  apply (main_filter_keeps_digit_pages None 0 "1999"). reflexivity.
Defined.

(** X1: Adding a custom rule under a name conjoins it with the filter: a URL passes the extended filter exactly when it satisfies the new rule and passes the filter with any earlier rule of that name removed (the new rule replaces it). *)
Theorem add_custom_rule_is_valid_url f name rule url :
  is_valid_url (add_custom_rule f name rule) url = true ↔
  rule url = true ∧
  is_valid_url (mkURLFilter (allowed_domains f) (excluded_patterns f) (path_prefixes f)
                            (delete name (custom_rules f))) url = true.
Proof.
  rewrite !is_valid_url_spec. simpl. split.
  - intros (Hh & u & Hp & Hd & Hpre & Hex & Hr). split.
    { apply (Hr name rule). by rewrite lookup_insert_eq. }
    split; [done|]. exists u. do 4 (split; [done|]).
    intros n r Hn. apply lookup_delete_Some in Hn as [Hne Hn].
    apply (Hr n r). by rewrite lookup_insert_ne.
  - intros (Hrule & Hh & u & Hp & Hd & Hpre & Hex & Hr).
    split; [done|]. exists u. do 4 (split; [done|]).
    intros n r Hn. destruct (decide (name = n)) as [<-|Hne].
    + rewrite lookup_insert_eq in Hn. by simplify_eq.
    + rewrite lookup_insert_ne in Hn by done. apply (Hr n r).
      by rewrite lookup_delete_ne.
Qed.

Lemma extract_links_fold (f : URLFilter) body pl0 :
  fold_left
    (fun pl href =>
       let full_url := ("https://en.wikipedia.org" ++ href)%string in
       if is_valid_url f full_url
       then mkPageLinks (S (pl_links_followed pl)) (pl_links_ignored pl)
                        (pl_new_urls pl ++ [full_url])%list
       else mkPageLinks (pl_links_followed pl) (S (pl_links_ignored pl)) (pl_new_urls pl))
    body pl0 =
  mkPageLinks
    (pl_links_followed pl0 + List.length (List.filter (is_valid_url f) (map full_url body)))
    (pl_links_ignored pl0 + List.length (List.filter (fun u => negb (is_valid_url f u)) (map full_url body)))
    (pl_new_urls pl0 ++ List.filter (is_valid_url f) (map full_url body))%list.
Proof.
  revert pl0. induction body as [|h body IH]; intros [fo ig nu]; simpl.
  - by rewrite !Nat.add_0_r, app_nil_r.
  - rewrite IH. unfold full_url. simpl.
    destruct (is_valid_url f _); simpl; f_equal; try lia. by rewrite <- app_assoc.
Qed.

Lemma filter_length_split {A} (p : A → bool) (l : list A) :
  List.length (List.filter p l) + List.length (List.filter (fun x => negb (p x)) l) = List.length l.
Proof. induction l as [|x l IH]; simpl; [done|]. destruct (p x); simpl; lia. Qed.

(** X4: over the hrefs the four selectors yield, taken selector by selector (a link matched by several overlapping selectors occurs once per selector), extract_links keeps exactly the absolute URLs that pass the filter, in that order; links_followed is the number kept, and links_followed plus links_ignored is the number of selector matches, not the number of distinct links on the page. *)
Theorem extract_links_partition body f :
  pl_new_urls (extract_links body f) = List.filter (is_valid_url f) (map full_url body) ∧
  pl_links_followed (extract_links body f) = List.length (pl_new_urls (extract_links body f)) ∧
  pl_links_followed (extract_links body f) + pl_links_ignored (extract_links body f) = List.length body.
Proof.
  unfold extract_links. rewrite extract_links_fold. simpl.
  split; [done|]. split; [done|].
  rewrite filter_length_split. apply length_map.
Qed.

Lemma fold_queue_push l q : fold_left queue_push l q = (q ++ l)%list.
Proof.
  revert q. induction l as [|x l IH]; intros q; simpl; [by rewrite app_nil_r|].
  rewrite IH. unfold queue_push. by rewrite <- app_assoc.
Qed.

(** X5: load_state appends the saved frontier to the current one and replaces the visited set; loading the state returned by get_state into the crawler it leaves behind gives back the original crawler. *)
Theorem load_state_get_state_roundtrip c st :
  queue (load_state c st) = (queue c ++ cs_queue st)%list ∧
  visited (load_state c st) = cs_visited st ∧
  load_state (snd (get_state c)) (fst (get_state c)) = c.
Proof.
  unfold load_state. simpl. rewrite !fold_queue_push. split; [done|]. split; [done|].
  unfold get_state. rewrite drain_queue_spec. simpl. by destruct c.
Qed.


Section CrawlFilterInv.

Variable f : URLFilter.

Definition valid_url (u : string) : Prop := is_valid_url f u = true.

(** What a call of [process_page] in progress has checked: past the depth
    and filter checks its URL is valid and at most [MAX_DEPTH] deep, and
    the URLs it still holds came out of [extract_links]. *)
Definition pp_ok (p : PP) : Prop :=
  match p with
  | PStart _ _ | PStats _ | PRet => True
  | PCheck u d | PFetch u d | PMark u d _ => valid_url u ∧ d ≤ MAX_DEPTH
  | PKeep u d rest acc _ =>
      valid_url u ∧ d ≤ MAX_DEPTH ∧ Forall valid_url rest ∧ Forall valid_url acc
  | PGraph u d todo _ => valid_url u ∧ d ≤ MAX_DEPTH ∧ Forall valid_url todo
  end.

Definition worker_pp_ok (pc : WorkerPC) : Prop :=
  match pc with WPage _ p => pp_ok p | _ => True end.

Definition main_pp_ok (pc : MainPC) : Prop :=
  match pc with MainPage p => pp_ok p | _ => True end.

(** The shared crawler keeps the filter; everything the crawl adds to the
    visited set, the frontier and the graph passed it. *)
Definition crawler_ok (c0 c : Crawler) : Prop :=
  url_filter c = f ∧
  (∀ u, u ∈ visited c → u ∈ visited c0 ∨ valid_url u) ∧
  (∀ e, e ∈ queue c → e ∈ queue c0 ∨ (valid_url e.1 ∧ 1 ≤ e.2 ≤ S MAX_DEPTH)) ∧
  nodes (graph c0) ⊆ nodes (graph c) ∧
  (∀ e, e ∈ edges (graph c) → e ∈ edges (graph c0) ∨
        (valid_url e.1 ∧ valid_url e.2 ∧ e.1 ∈ nodes (graph c) ∧ e.2 ∈ nodes (graph c))).

Definition fetch_ok (evs : list Event) : Prop :=
  ∀ u, EvFetch u ∈ evs → valid_url u.

Definition filter_inv (c0 : Crawler) (w : World) : Prop :=
  crawler_ok c0 (crawler w) ∧ fetch_ok (log w) ∧ main_pp_ok (main_pc w) ∧
  Forall worker_pp_ok (workers w).

Lemma extract_links_valid body :
  Forall valid_url (pl_new_urls (extract_links body f)).
Proof.
  unfold extract_links. rewrite extract_links_fold. simpl.
  apply Forall_forall. intros x Hx. apply list_elem_of_In, filter_In in Hx as [_ Hx]. done.
Qed.

Lemma step_page_filter_ok fetch c0 p c p' c' evs :
  pp_ok p → crawler_ok c0 c → step_page fetch p c = Some (p', c', evs) →
  pp_ok p' ∧ crawler_ok c0 c' ∧ fetch_ok evs.
Proof.
  intros Hp (Hf & Hv & Hq & Hn & He) Hs.
  unfold step_page in Hs. destruct p as [u d|u d|u d|u d body|u d rest acc pl|u d todo pl|pl|];
    simpl in Hp.
  - destruct (Nat.ltb_spec MAX_DEPTH d); simplify_eq/=.
    { split; [done|]. split; [by split|]. by intros ? []%elem_of_nil. }
    destruct (is_valid_url (url_filter c) u) eqn:Hu; simplify_eq/=.
    + split; [split; [unfold valid_url; congruence | lia]|].
      split; [by split|]. by intros ? []%elem_of_nil.
    + split; [done|]. split; [by split|]. by intros ? []%elem_of_nil.
  - case_bool_decide; simplify_eq/=; (split; [done|]); (split; [by split|]);
      by intros ? []%elem_of_nil.
  - destruct (fetch u); simplify_eq/=; (split; [done|]); (split; [by split|]);
      intros v Hv'; apply list_elem_of_singleton in Hv'; simplify_eq; apply Hp.
  - simplify_eq/=. destruct Hp as [Hu Hd].
    case_bool_decide; simpl.
    + split; [split_and!; first [done | rewrite Hf; apply extract_links_valid | constructor]|].
      split; [by split|]. by intros ? []%elem_of_nil.
    + split; [split_and!; first [done | rewrite Hf; apply extract_links_valid | constructor]|].
      split; [|by intros ? []%elem_of_nil].
      split_and!; simpl; try done.
      intros v [->%elem_of_singleton|Hv']%elem_of_union; [by right|]. by apply Hv.
  - destruct rest as [|x rest]; simplify_eq/=.
    + split; [naive_solver|]. split; [by split|]. by intros ? []%elem_of_nil.
    + destruct Hp as (Hu & Hd & Hr & Ha). apply Forall_cons in Hr as [Hx Hr].
      split; [split_and!; try done; case_bool_decide; [done|]; apply Forall_app; auto|].
      split; [by split|]. by intros ? []%elem_of_nil.
  - destruct todo as [|x todo]; simplify_eq/=.
    + split; [done|]. split; [by split|]. by intros ? []%elem_of_nil.
    + destruct Hp as (Hu & Hd & Ht). apply Forall_cons in Ht as [Hx Ht].
      split; [done|]. split; [|by intros ? []%elem_of_nil].
      split_and!; simpl; try done.
      * intros e. unfold queue_push. rewrite elem_of_app, list_elem_of_singleton.
        intros [He' | ->]; [by apply Hq|]. right. simpl. split; [done|]. unfold MAX_DEPTH in *. lia.
      * set_solver.
      * intros e. rewrite elem_of_app, list_elem_of_singleton.
        intros [He' | ->].
        { destruct (He e He') as [?|(? & ? & ? & ?)]; [by left|]. right. set_solver. }
        right. simpl. split_and!; try done; set_solver.
  - simplify_eq/=. split; [done|]. split; [by split|]. by intros ? []%elem_of_nil.
  - done.
Qed.

Lemma crawler_ok_pop c0 c x q :
  crawler_ok c0 c → queue_pop (queue c) = Some (x, q) → crawler_ok c0 (set_queue c q).
Proof.
  intros (Hf & Hv & Hq & Hn & He) Hp. destruct (queue c) as [|y q'] eqn:Hc; simplify_eq/=.
  split_and!; try done. intros e He'. apply Hq. by right.
Qed.

Lemma fetch_ok_app evs lg : fetch_ok evs → fetch_ok lg → fetch_ok (evs ++ lg)%list.
Proof. intros H1 H2 u Hu. apply elem_of_app in Hu as [?|?]; auto. Qed.

Lemma fetch_ok_sleep j lg : fetch_ok lg → fetch_ok ([EvSleep j] ++ lg)%list.
Proof. intros H u Hu. apply elem_of_app in Hu as [Hu|?]; [|auto]. by apply list_elem_of_singleton in Hu. Qed.

Opaque step_page.

Lemma step_world_filter_inv fetch c0 i w w' :
  filter_inv c0 w → step_world fetch i w = Some w' → filter_inv c0 w'.
Proof.
  destruct w as [c lg m ws]. unfold filter_inv, step_world; simpl.
  intros (Hc & Hl & Hm & Hws) Hs. destruct i as [|j].
  - destruct m as [|p| | |]; simpl in *.
    + destruct (queue_pop (queue c)) as [[[u d] q]|] eqn:Hp; simplify_eq/=;
        split_and!; try done. by eapply crawler_ok_pop.
    + destruct p; simplify_eq/=; try (split_and!; done);
        destr_step_page; simplify_eq/=;
        match goal with Hp : step_page _ _ _ = Some _ |- _ =>
          apply (step_page_filter_ok _ c0) in Hp as (? & ? & ?); [|done|done] end;
        split_and!; try done; by apply fetch_ok_app.
    + simplify_eq/=. split_and!; try done. by repeat constructor.
    + destruct (forallb _ _); simplify_eq/=. split_and!; done.
    + done.
  - destruct (ws !! j) as [pc|] eqn:Hj; [|done].
    assert (worker_pp_ok pc) as Hpc by (eapply Forall_lookup_1; eauto).
    destruct pc as [n|u d n|n p|n|]; simpl in Hpc.
    + destruct (n <? MAX_PAGES_PER_WORKER)%nat;
        [destruct (queue_pop (queue c)) as [[[u d] q]|] eqn:Hp|]; simplify_eq/=;
        (split_and!; [first [done | by eapply crawler_ok_pop] | done | done | by apply Forall_insert]).
    + case_bool_decide; simplify_eq/=; split_and!; try done; by apply Forall_insert.
    + destruct p; simplify_eq/=;
        try (split_and!; try done; by apply Forall_insert);
        destr_step_page; simplify_eq/=;
        match goal with Hp : step_page _ _ _ = Some _ |- _ =>
          apply (step_page_filter_ok _ c0) in Hp as (? & ? & ?); [|done|done] end;
        (split_and!; [done | by apply fetch_ok_app | done | by apply Forall_insert]).
    + simplify_eq/=. split_and!; [done | by apply fetch_ok_sleep | done | by apply Forall_insert].
    + done.
Qed.

Transparent step_page.

Lemma run_filter_inv fetch c0 sched w :
  filter_inv c0 w → filter_inv c0 (run fetch sched w).
Proof.
  revert w. induction sched as [|i sched IH]; intros w Hw; simpl; [done|].
  apply IH. destruct (step_world fetch i w) as [w'|] eqn:Hs; simpl; [|done].
  by eapply step_world_filter_inv.
Qed.

End CrawlFilterInv.

Lemma start_crawl_filter_inv c now :
  filter_inv (url_filter c) c (start_crawl_init c now).
Proof.
  split_and!; simpl; [|by intros ? []%elem_of_nil | done | done].
  split_and!; simpl; try done; intros ? ?; by left.
Qed.

Ltac list_mem := apply list_elem_of_In; vm_compute; repeat (first [left; reflexivity | right]).

(** X6: In every interleaving of start_crawl, every URL that is fetched passes the crawler's URL filter. *)
Theorem crawl_fetches_only_valid_urls fetch c now sched u
  (Hu : EvFetch u ∈ log (run fetch sched (start_crawl_init c now))) :
  is_valid_url (url_filter c) u = true.
Proof.
  destruct (run_filter_inv (url_filter c) fetch c sched (start_crawl_init c now))
    as (_ & Hl & _); [apply start_crawl_filter_inv|].
  by apply Hl.
Qed.

Lemma crawl_fetches_only_valid_urls_witness :
  EvFetch x_url ∈ log (run fetch_twice_linked sched_one_worker seed_run) ∧
  is_valid_url (url_filter (Crawler_new (Some seed_url) 0)) x_url = true.
Proof.
  split; [list_mem|].
  apply (crawl_fetches_only_valid_urls fetch_twice_linked _ 0 sched_one_worker). list_mem.
Defined.

(** X7: In every interleaving of start_crawl, every URL in the final visited set was already visited before the crawl or passes the URL filter. *)
Theorem crawl_marks_only_valid_urls fetch c now sched u
  (Hu : u ∈ visited (crawler (run fetch sched (start_crawl_init c now)))) :
  u ∈ visited c ∨ is_valid_url (url_filter c) u = true.
Proof.
  destruct (run_filter_inv (url_filter c) fetch c sched (start_crawl_init c now))
    as ((_ & Hv & _) & _); [apply start_crawl_filter_inv|].
  by apply Hv.
Qed.

Lemma crawl_marks_only_valid_urls_witness :
  x_url ∈ visited (crawler (run fetch_twice_linked sched_one_worker seed_run)) ∧
  (x_url ∈ visited (Crawler_new (Some seed_url) 0) ∨
   is_valid_url (url_filter (Crawler_new (Some seed_url) 0)) x_url = true).
Proof.
  split; [apply (bool_decide_eq_true_1 _); vm_compute; reflexivity|].
  apply (crawl_marks_only_valid_urls fetch_twice_linked _ 0 sched_one_worker).
  apply (bool_decide_eq_true_1 _). vm_compute. reflexivity.
Defined.

(** X8: In every interleaving of start_crawl, every frontier entry left at the end was there before the crawl or has a URL that passes the filter and a depth between 1 and MAX_DEPTH + 1. *)
Theorem crawl_frontier_entries_valid fetch c now sched e
  (He : e ∈ queue (crawler (run fetch sched (start_crawl_init c now)))) :
  e ∈ queue c ∨ (is_valid_url (url_filter c) e.1 = true ∧ 1 ≤ e.2 ≤ S MAX_DEPTH).
Proof.
  destruct (run_filter_inv (url_filter c) fetch c sched (start_crawl_init c now))
    as ((_ & _ & Hq & _) & _); [apply start_crawl_filter_inv|].
  by apply Hq.
Qed.

Lemma crawl_frontier_entries_valid_witness :
  (x_url, 1) ∈ queue (crawler (run fetch_twice_linked (repeat 0 20) seed_run)) ∧
  ((x_url, 1) ∈ queue (Crawler_new (Some seed_url) 0) ∨
   (is_valid_url (url_filter (Crawler_new (Some seed_url) 0)) x_url = true ∧ 1 ≤ 1 ≤ S MAX_DEPTH)).
Proof.
  split; [list_mem|].
  apply (crawl_frontier_entries_valid fetch_twice_linked _ 0 (repeat 0 20) (x_url, 1)). list_mem.
Defined.

(** X9: In every interleaving of start_crawl, every graph edge at the end was there before the crawl or links two URLs that pass the filter and are both nodes of the final graph. *)
Theorem crawl_graph_edges_valid fetch c now sched e
  (He : e ∈ edges (graph (crawler (run fetch sched (start_crawl_init c now))))) :
  e ∈ edges (graph c) ∨
  (is_valid_url (url_filter c) e.1 = true ∧ is_valid_url (url_filter c) e.2 = true ∧
   e.1 ∈ nodes (graph (crawler (run fetch sched (start_crawl_init c now)))) ∧
   e.2 ∈ nodes (graph (crawler (run fetch sched (start_crawl_init c now))))).
Proof.
  destruct (run_filter_inv (url_filter c) fetch c sched (start_crawl_init c now))
    as ((_ & _ & _ & _ & Hg) & _); [apply start_crawl_filter_inv|].
  by apply Hg.
Qed.

Lemma crawl_graph_edges_valid_witness :
  (seed_url, x_url) ∈ edges (graph (crawler (run fetch_twice_linked (repeat 0 20) seed_run))) ∧
  ((seed_url, x_url) ∈ edges (graph (Crawler_new (Some seed_url) 0)) ∨
   (is_valid_url (url_filter (Crawler_new (Some seed_url) 0)) seed_url = true ∧
    is_valid_url (url_filter (Crawler_new (Some seed_url) 0)) x_url = true ∧
    seed_url ∈ nodes (graph (crawler (run fetch_twice_linked (repeat 0 20) seed_run))) ∧
    x_url ∈ nodes (graph (crawler (run fetch_twice_linked (repeat 0 20) seed_run))))).
Proof.
  split; [list_mem|].
  apply (crawl_graph_edges_valid fetch_twice_linked _ 0 (repeat 0 20) (seed_url, x_url)). list_mem.
Defined.


Lemma lookup_push_entry m k v s :
  push_entry m k v !! s =
  if decide (k = s) then Some (default [] (m !! k) ++ [v])%list else m !! s.
Proof.
  unfold push_entry. case_decide as Hk.
  - subst. by rewrite lookup_insert_eq.
  - by rewrite lookup_insert_ne.
Qed.

Lemma default_push_entry m k v s :
  default [] (push_entry m k v !! s) =
  (default [] (m !! s) ++ (if decide (k = s) then [v] else []))%list.
Proof.
  rewrite lookup_push_entry. case_decide; subst; simpl; [done|]. by rewrite app_nil_r.
Qed.

Lemma is_Some_push_entry m k v s :
  is_Some (push_entry m k v !! s) ↔ is_Some (m !! s) ∨ k = s.
Proof.
  rewrite lookup_push_entry. case_decide; subst; [naive_solver|]. naive_solver.
Qed.

Lemma load_from_edges_cons a e es :
  load_from_edges a (e :: es) =
  load_from_edges (mkAnalytics (push_entry (outbound_links a) e.1 e.2)
                               (push_entry (inbound_links a) e.2 e.1)) es.
Proof. by destruct e. Qed.

Lemma load_from_edges_out a es s :
  default [] (outbound_links (load_from_edges a es) !! s) =
    (default [] (outbound_links a !! s) ++ map snd (List.filter (fun e => String.eqb e.1 s) es))%list ∧
  (is_Some (outbound_links (load_from_edges a es) !! s) ↔
    is_Some (outbound_links a !! s) ∨ ∃ t, (s, t) ∈ es).
Proof.
  revert a. induction es as [|[x y] es IH]; intros a.
  - simpl. rewrite app_nil_r. split; [done|]. set_solver.
  - rewrite load_from_edges_cons. cbn [fst snd].
    destruct (IH (mkAnalytics (push_entry (outbound_links a) x y)
                              (push_entry (inbound_links a) y x))) as [H1 H2].
    simpl in H1, H2. split.
    + rewrite H1, default_push_entry. cbn [List.filter fst].
      destruct (String.eqb_spec x s) as [->|Hne].
      * rewrite decide_True by done. simpl. by rewrite <- app_assoc.
      * rewrite decide_False by done. by rewrite app_nil_r.
    + rewrite H2, is_Some_push_entry. split.
      * intros [[?| ->]|(t & Ht)]; [by left| right; exists y; by left | right; exists t; by right].
      * intros [?|(t & Ht)]; [by left; left|].
        apply elem_of_cons in Ht as [[= -> ->]|Ht]; [by left; right|]. right. by exists t.
Qed.

Lemma load_from_edges_in a es s :
  default [] (inbound_links (load_from_edges a es) !! s) =
    (default [] (inbound_links a !! s) ++ map fst (List.filter (fun e => String.eqb e.2 s) es))%list ∧
  (is_Some (inbound_links (load_from_edges a es) !! s) ↔
    is_Some (inbound_links a !! s) ∨ ∃ t, (t, s) ∈ es).
Proof.
  revert a. induction es as [|[x y] es IH]; intros a.
  - simpl. rewrite app_nil_r. split; [done|]. set_solver.
  - rewrite load_from_edges_cons. cbn [fst snd].
    destruct (IH (mkAnalytics (push_entry (outbound_links a) x y)
                              (push_entry (inbound_links a) y x))) as [H1 H2].
    simpl in H1, H2. split.
    + rewrite H1, default_push_entry. cbn [List.filter snd].
      destruct (String.eqb_spec y s) as [->|Hne].
      * rewrite decide_True by done. simpl. by rewrite <- app_assoc.
      * rewrite decide_False by done. by rewrite app_nil_r.
    + rewrite H2, is_Some_push_entry. split.
      * intros [[?| ->]|(t & Ht)]; [by left| right; exists x; by left | right; exists t; by right].
      * intros [?|(t & Ht)]; [by left; left|].
        apply elem_of_cons in Ht as [[= -> ->]|Ht]; [by left; right|]. right. by exists t.
Qed.

(** X10: load_from_edges appends, for each page, the targets of its edges to its outbound list and the sources of the edges into it to its inbound list, in edge order; a page gets an outbound (inbound) entry exactly when it had one or is the source (target) of an edge. *)
Theorem load_from_edges_adjacency a es s :
  default [] (outbound_links (load_from_edges a es) !! s) =
    (default [] (outbound_links a !! s) ++ map snd (List.filter (fun e => String.eqb e.1 s) es))%list ∧
  default [] (inbound_links (load_from_edges a es) !! s) =
    (default [] (inbound_links a !! s) ++ map fst (List.filter (fun e => String.eqb e.2 s) es))%list ∧
  (is_Some (outbound_links (load_from_edges a es) !! s) ↔
    is_Some (outbound_links a !! s) ∨ ∃ t, (s, t) ∈ es) ∧
  (is_Some (inbound_links (load_from_edges a es) !! s) ↔
    is_Some (inbound_links a !! s) ∨ ∃ t, (t, s) ∈ es).
Proof.
  destruct (load_from_edges_out a es s), (load_from_edges_in a es s). done.
Qed.

(** [Vec::dedup] *)
Lemma elem_of_dedup l x : x ∈ dedup l ↔ x ∈ l.
Proof.
  induction l as [|y l IH]; [done|].
  destruct l as [|z l]; [done|].
  change (dedup (y :: z :: l)) with
    (if String.eqb y z then dedup (z :: l) else y :: dedup (z :: l)).
  destruct (String.eqb_spec y z) as [<-|Hne].
  - rewrite IH. set_solver.
  - rewrite elem_of_cons, IH. symmetry. apply elem_of_cons.
Qed.

Lemma dedup_strongly_sorted l :
  StronglySorted String.le l → StronglySorted (fun x y => String.le x y ∧ x ≠ y) (dedup l).
Proof.
  induction l as [|y l IH]; intros Hs; [constructor|].
  apply StronglySorted_inv in Hs as [Hl Hall].
  destruct l as [|z l]; [repeat constructor|].
  change (dedup (y :: z :: l)) with
    (if String.eqb y z then dedup (z :: l) else y :: dedup (z :: l)).
  destruct (String.eqb_spec y z) as [<-|Hne]; [by apply IH|].
  constructor; [by apply IH|].
  apply Forall_forall. intros w Hw.
  assert (w ∈ z :: l) as Hw'.
  { by apply elem_of_dedup. }
  rewrite Forall_forall in Hall.
  split; [by apply Hall|]. intros Hyw. subst w.
  apply Hne. apply (anti_symm String.le); [apply Hall; by left|].
  apply StronglySorted_inv in Hl as [_ Hz]. rewrite Forall_forall in Hz.
  apply elem_of_cons in Hw' as [<-|Hw']; [done|].
  by apply Hz.
Qed.

Lemma strict_sorted_NoDup (R : string → string → Prop) l :
  (∀ x y, R x y → x ≠ y) → StronglySorted R l → NoDup l.
Proof.
  intros HR. induction l as [|x l IH]; intros Hs; constructor.
  - apply StronglySorted_inv in Hs as [_ Hall]. intros Hx.
    rewrite Forall_forall in Hall. by apply (HR x x); [apply Hall|].
  - apply IH. by apply StronglySorted_inv in Hs as [? _].
Qed.

Lemma StronglySorted_weaken (R1 R2 : string → string → Prop) l :
  (∀ x y, R1 x y → R2 x y) → StronglySorted R1 l → StronglySorted R2 l.
Proof.
  intros H12. induction l as [|x l IH]; intros Hs; constructor;
    apply StronglySorted_inv in Hs as [Hl Hall]; [by apply IH|].
  eapply Forall_impl; [exact Hall|]. auto.
Qed.

Lemma elem_of_canonical_keys (m : gmap string (list string)) p :
  p ∈ canonical_keys m ↔ is_Some (m !! p).
Proof.
  unfold canonical_keys. rewrite list_elem_of_fmap. split.
  - intros ([k v] & -> & Hkv). apply elem_of_map_to_list in Hkv. by eexists.
  - intros [v Hv]. exists (p, v). split; [done|]. by apply elem_of_map_to_list.
Qed.

Lemma get_all_pages_spec keys_of a (H : key_order_ok keys_of) :
  Sorted String.le (get_all_pages keys_of a) ∧ NoDup (get_all_pages keys_of a) ∧
  ∀ p, p ∈ get_all_pages keys_of a ↔ is_Some (outbound_links a !! p) ∨ is_Some (inbound_links a !! p).
Proof.
  unfold get_all_pages.
  assert (StronglySorted String.le
            (merge_sort String.le (keys_of (outbound_links a) ++ keys_of (inbound_links a))%list)) as Hss.
  { apply Sorted_StronglySorted; [intros x y z; apply (transitivity (R:=String.le))|].
    apply Sorted_merge_sort. exact String.le_total. }
  pose proof (dedup_strongly_sorted _ Hss) as Hd.
  split_and!.
  - apply StronglySorted_Sorted. eapply StronglySorted_weaken; [|exact Hd]. naive_solver.
  - eapply strict_sorted_NoDup; [|exact Hd]. naive_solver.
  - intros p. rewrite elem_of_dedup, merge_sort_Permutation, elem_of_app, (H (outbound_links a)),
      (H (inbound_links a)), !elem_of_canonical_keys. done.
Qed.

Lemma initial_scores_lookup (init : float) pages (m : gmap string float) p :
  fold_left (fun m page => <[page := init]> m) pages m !! p =
  if bool_decide (p ∈ pages) then Some init else m !! p.
Proof.
  revert m. induction pages as [|q pages IH]; intros m; simpl; [done|].
  rewrite IH. case_bool_decide as H1; case_bool_decide as H2; try done.
  - set_solver.
  - apply elem_of_cons in H2 as [->|]; [|done]. by rewrite lookup_insert_eq.
  - rewrite lookup_insert_ne; [done|]. set_solver.
Qed.

Lemma pagerank_snapshot_succ a N init pages k s0 :
  pagerank_snapshot a N init pages (S k) s0 =
  fst (pagerank_pass a N init (pagerank_snapshot a N init pages k s0) pages ∅ 0%float).
Proof. unfold pagerank_snapshot. by rewrite Nat.iter_succ. Qed.

(** The scores returned are a snapshot after [iterations] adopted
    iterations. *)
Lemma calculate_pagerank_snapshot keys_of a :
  let pages := get_all_pages keys_of a in
  let N := f64_of_usize (List.length pages) in
  let init := (1.0 / N)%float in
  scores (calculate_pagerank keys_of a) =
  pagerank_snapshot a N init pages (iterations (calculate_pagerank keys_of a))
    (fold_left (fun m page => <[page := init]> m) pages ∅).
Proof.
  intros pages N init. unfold calculate_pagerank. fold pages N init.
  destruct (pagerank_loop a N init pages MAX_ITERATIONS 0 _) as [[s it] c] eqn:Hl.
  simpl. apply pagerank_loop_spec in Hl.
  destruct Hl as [(-> & j & Hj & -> & -> & _)|(-> & -> & -> & _)]; done.
Qed.

Lemma calculate_pagerank_dom keys_of a p :
  is_Some (scores (calculate_pagerank keys_of a) !! p) ↔ p ∈ get_all_pages keys_of a.
Proof.
  rewrite calculate_pagerank_snapshot.
  destruct (iterations (calculate_pagerank keys_of a)) as [|k].
  - unfold pagerank_snapshot. simpl Nat.iter. rewrite initial_scores_lookup, lookup_empty.
    case_bool_decide; split; try done; intros [? ?]; done.
  - rewrite pagerank_snapshot_succ, pagerank_pass_lookup, lookup_empty.
    case_bool_decide; split; try done; intros [? ?]; done.
Qed.

Lemma get_all_pages_edges keys_of es p (H : key_order_ok keys_of) :
  p ∈ get_all_pages keys_of (load_from_edges Analytics_new es) ↔ ∃ q, (p, q) ∈ es ∨ (q, p) ∈ es.
Proof.
  destruct (get_all_pages_spec keys_of (load_from_edges Analytics_new es) H) as (_ & _ & ->).
  rewrite (proj2 (load_from_edges_out Analytics_new es p)),
          (proj2 (load_from_edges_in Analytics_new es p)).
  simpl. rewrite lookup_empty. split.
  - intros [[[? ?]|(q & ?)]|[[? ?]|(q & ?)]]; try done; eauto.
  - intros (q & [?|?]); [left|right]; right; eauto.
Qed.

(** X11: After loading a list of edges, calculate_pagerank gives a score to exactly the pages that appear in some edge. *)
Theorem calculate_pagerank_scores_every_page keys_of es p (H : key_order_ok keys_of) :
  is_Some (scores (calculate_pagerank keys_of (load_from_edges Analytics_new es)) !! p) ↔
  ∃ q, (p, q) ∈ es ∨ (q, p) ∈ es.
Proof. rewrite calculate_pagerank_dom. by apply get_all_pages_edges. Qed.

(** X12: A page with outbound but no inbound links gets the score (1 - d) / N once at least one iteration has been adopted, where N is the number of pages. *)
Theorem pagerank_unlinked_page_score keys_of es p
  (H : key_order_ok keys_of)
  (Hit : iterations (calculate_pagerank keys_of (load_from_edges Analytics_new es)) ≠ 0)
  (Hp : ∃ q, (p, q) ∈ es)
  (Hin : ∀ q, (q, p) ∉ es) :
  scores (calculate_pagerank keys_of (load_from_edges Analytics_new es)) !! p =
  Some ((1.0 - DAMPING_FACTOR) /
        f64_of_usize (List.length (get_all_pages keys_of (load_from_edges Analytics_new es))))%float.
Proof.
  rewrite calculate_pagerank_snapshot.
  destruct (iterations _) as [|k]; [done|].
  rewrite pagerank_snapshot_succ, pagerank_pass_lookup.
  rewrite bool_decide_eq_true_2.
  2:{ apply get_all_pages_edges; [done|]. destruct Hp as [q Hq]. eauto. }
  f_equal. unfold page_score.
  destruct (load_from_edges_in Analytics_new es p) as [Hl _]. simpl in Hl.
  rewrite lookup_empty in Hl. simpl in Hl.
  assert (List.filter (fun e => String.eqb e.2 p) es = []) as Hf.
  { clear -Hin. induction es as [|[x y] es IH]; [done|]. simpl.
    destruct (String.eqb_spec y p) as [->|]; [exfalso; apply (Hin x); by left|].
    apply IH. intros q Hq. apply (Hin q). by right. }
  rewrite Hf in Hl. simpl in Hl. by rewrite Hl.
Qed.

Lemma calculate_pagerank_scores_every_page_witness :
  key_order_ok canonical_keys ∧
  (is_Some (scores (calculate_pagerank canonical_keys (load_from_edges Analytics_new edges_AB)) !! "B"%string) ↔
   ∃ q, ("B"%string, q) ∈ edges_AB ∨ (q, "B"%string) ∈ edges_AB).
Proof.
  split; [intros m; reflexivity|].
  apply (calculate_pagerank_scores_every_page canonical_keys edges_AB "B"). intros m. reflexivity.
Defined.

Lemma pagerank_unlinked_page_score_witness :
  (key_order_ok canonical_keys ∧
   iterations (calculate_pagerank canonical_keys (load_from_edges Analytics_new edges_AB)) ≠ 0 ∧
   (∃ q, ("A"%string, q) ∈ edges_AB) ∧ (∀ q, (q, "A"%string) ∉ edges_AB)) ∧
  scores (calculate_pagerank canonical_keys (load_from_edges Analytics_new edges_AB)) !! "A"%string =
  Some ((1.0 - DAMPING_FACTOR) /
        f64_of_usize (List.length (get_all_pages canonical_keys (load_from_edges Analytics_new edges_AB))))%float.
Proof.
  assert (key_order_ok canonical_keys) as Hk by (intros m; reflexivity).
  assert (iterations (calculate_pagerank canonical_keys (load_from_edges Analytics_new edges_AB)) ≠ 0) as Hit
    by (vm_compute; discriminate).
  assert (∃ q, ("A"%string, q) ∈ edges_AB) as Hp by (exists "B"%string; by left).
  assert (∀ q, (q, "A"%string) ∉ edges_AB) as Hin
    by (intros q Hq; apply list_elem_of_singleton in Hq; discriminate).
  split; [done|].
  apply (pagerank_unlinked_page_score canonical_keys edges_AB "A"); done.
Defined.

Lemma get_all_pages_empty keys_of (H : key_order_ok keys_of) :
  get_all_pages keys_of Analytics_new = [].
Proof.
  unfold get_all_pages. simpl.
  assert (keys_of ∅ = []) as ->; [|done].
  apply Permutation_nil. rewrite (H ∅). done.
Qed.

(** X13: With no edges loaded, calculate_pagerank returns no scores, zero iterations and converged = true. *)
Theorem calculate_pagerank_no_edges keys_of (H : key_order_ok keys_of) :
  calculate_pagerank keys_of (load_from_edges Analytics_new []) = mkPageRankResults ∅ 0 true.
Proof.
  unfold calculate_pagerank. simpl load_from_edges. rewrite get_all_pages_empty by done.
  vm_compute. reflexivity.
Qed.

Lemma calculate_pagerank_no_edges_witness :
  key_order_ok canonical_keys ∧
  calculate_pagerank canonical_keys (load_from_edges Analytics_new []) = mkPageRankResults ∅ 0 true.
Proof.
  split; [intros m; reflexivity|].
  apply (calculate_pagerank_no_edges canonical_keys). intros m. reflexivity.
Defined.


Lemma add_edge_adjacency pf from to x y :
  y ∈ default [] (adjacency_list (add_edge pf from to) !! x) ↔
  y ∈ default [] (adjacency_list pf !! x) ∨ (from = x ∧ to = y) ∨ (to = x ∧ from = y).
Proof.
  unfold add_edge. simpl. rewrite !default_push_entry, !elem_of_app.
  case_decide; case_decide; subst; rewrite ?list_elem_of_singleton; set_solver.
Qed.

Lemma is_Some_add_edge pf from to x :
  is_Some (adjacency_list (add_edge pf from to) !! x) ↔
  is_Some (adjacency_list pf !! x) ∨ from = x ∨ to = x.
Proof. unfold add_edge. simpl. rewrite !is_Some_push_entry. naive_solver. Qed.

Lemma add_edges_cons pf e es : add_edges pf (e :: es) = add_edges (add_edge pf e.1 e.2) es.
Proof. by destruct e. Qed.

Lemma add_edges_elem pf es x y :
  y ∈ default [] (adjacency_list (add_edges pf es) !! x) ↔
  y ∈ default [] (adjacency_list pf !! x) ∨ (x, y) ∈ es ∨ (y, x) ∈ es.
Proof.
  revert pf. induction es as [|[f t] es IH]; intros pf; [simpl; set_solver|].
  rewrite add_edges_cons. cbn [fst snd].
  rewrite IH, add_edge_adjacency, !elem_of_cons. split.
  - intros [[?|[[-> ->]|[-> ->]]]|[?|?]]; auto.
  - intros [?|[[[= -> ->]|?]|[[= -> ->]|?]]]; auto.
Qed.

Lemma add_edges_is_Some pf es x :
  is_Some (adjacency_list (add_edges pf es) !! x) ↔
  is_Some (adjacency_list pf !! x) ∨ ∃ z, (x, z) ∈ es ∨ (z, x) ∈ es.
Proof.
  revert pf. induction es as [|[f t] es IH]; intros pf.
  - simpl. split; [by left|]. intros [?|(z & [?|?])]; set_solver.
  - rewrite add_edges_cons. cbn [fst snd].
    rewrite IH, is_Some_add_edge. split.
    + intros [[?|[->| ->]]|(z & [?|?])].
      * by left.
      * right. exists t. left. apply elem_of_cons. by left.
      * right. exists f. right. apply elem_of_cons. by left.
      * right. exists z. left. apply elem_of_cons. by right.
      * right. exists z. right. apply elem_of_cons. by right.
    + intros [?|(z & [Hz|Hz])]; [by left; left| |];
        apply elem_of_cons in Hz as [[= -> ->]|Hz]; auto.
      * right. exists z. by left.
      * right. exists z. by right.
Qed.

(** X14: After adding a list of edges, y is a neighbour of x exactly when it was before or some edge joins x and y in either direction; x has an adjacency entry exactly when it had one or is an endpoint of some edge. *)
Theorem add_edges_adjacency pf es x y :
  (y ∈ default [] (adjacency_list (add_edges pf es) !! x) ↔
   y ∈ default [] (adjacency_list pf !! x) ∨ (x, y) ∈ es ∨ (y, x) ∈ es) ∧
  (is_Some (adjacency_list (add_edges pf es) !! x) ↔
   is_Some (adjacency_list pf !! x) ∨ ∃ z, (x, z) ∈ es ∨ (z, x) ∈ es).
Proof. split; [apply add_edges_elem | apply add_edges_is_Some]. Qed.

(** Each node BFS reached was recorded with a predecessor whose adjacency
    list holds it. *)
Definition came_from_ok (adj : gmap string (list string)) (cf : gmap string string) : Prop :=
  ∀ x p, cf !! x = Some p → adj_edge adj p x.

(** Consecutive nodes of [l] are linked in the adjacency. *)
Definition adj_walk (adj : gmap string (list string)) (l : list string) : Prop :=
  ∀ i x y, l !! i = Some x → l !! S i = Some y → adj_edge adj x y.

Lemma adj_walk_cons adj x y l :
  adj_edge adj x y → adj_walk adj (y :: l) → adj_walk adj (x :: y :: l).
Proof.
  intros Hxy Hw [|i] a b Ha Hb; simpl in *.
  - by simplify_eq.
  - by apply (Hw i).
Qed.

Lemma visit_neighbors_came_from adj current ns q vis cf q' vis' cf' :
  (∀ n, n ∈ ns → adj_edge adj current n) → came_from_ok adj cf →
  visit_neighbors current ns (q, vis, cf) = (q', vis', cf') → came_from_ok adj cf'.
Proof.
  unfold visit_neighbors. revert q vis cf.
  induction ns as [|n ns IH]; intros q vis cf Hns Hcf; simpl.
  - by intros [= -> -> ->].
  - case_bool_decide; apply IH; try (intros m Hm; apply Hns; by right); [done|].
    intros x p Hx. destruct (decide (n = x)) as [<-|Hne].
    + rewrite lookup_insert_eq in Hx. simplify_eq. apply Hns. by left.
    + rewrite lookup_insert_ne in Hx by done. by apply Hcf.
Qed.

Lemma reconstruct_loop_walk adj cf start fuel cur path res :
  came_from_ok adj cf →
  adj_walk adj (reverse path) → reverse path !! 0 = Some cur →
  reconstruct_loop cf start fuel cur path = Some res →
  adj_walk adj (reverse res) ∧ reverse res !! 0 = Some start ∧
  last (reverse res) = last (reverse path).
Proof.
  intros Hcf. revert cur path. induction fuel as [|fuel IH]; intros cur path Hw Hh; simpl.
  - destruct (String.eqb_spec cur start) as [->|]; [|done]. by intros [= <-].
  - destruct (String.eqb_spec cur start) as [->|]; [by intros [= <-]|].
    destruct (cf !! cur) as [prev|] eqn:Hp; [|done].
    intros Hl. destruct (IH prev (path ++ [prev])%list) as (Hw' & Hh' & Hlast); [| |done|].
    + rewrite reverse_snoc. destruct (reverse path) as [|y l]; [done|].
      simpl in Hh. simplify_eq. apply adj_walk_cons; [by apply Hcf|done].
    + by rewrite reverse_snoc.
    + split; [done|]. split; [done|]. rewrite Hlast, reverse_snoc.
      destruct (reverse path) as [|y l]; [done|]. done.
Qed.

Lemma reconstruct_path_walk adj cf start end_ path :
  came_from_ok adj cf → reconstruct_path cf start end_ = Some path →
  adj_walk adj path ∧ path !! 0 = Some start ∧ last path = Some end_.
Proof.
  intros Hcf. unfold reconstruct_path.
  destruct (negb _); [done|].
  destruct (reconstruct_loop cf start (size cf) end_ [end_]) as [res|] eqn:Hl; [|done].
  intros [= <-].
  assert (adj_walk adj (reverse [end_])) as Hw0.
  { intros [|i] x y; simpl; [done|]. by rewrite lookup_nil. }
  destruct (reconstruct_loop_walk adj cf start (size cf) end_ [end_] res Hcf Hw0 eq_refl Hl)
    as (Hw & Hh & Hlast).
  split; [done|]. split; [done|]. by rewrite Hlast.
Qed.

Lemma bfs_walk adj start end_ fuel queue visited cf path :
  came_from_ok adj cf →
  bfs adj start end_ fuel queue visited cf = Ok path →
  adj_walk adj path ∧ path !! 0 = Some start ∧ last path = Some end_.
Proof.
  revert queue visited cf. induction fuel as [|fuel IH]; intros queue visited cf Hcf; simpl; [done|].
  destruct queue as [|current queue]; [done|].
  destruct (String.eqb current end_).
  - destruct (reconstruct_path cf start end_) as [p|] eqn:Hr; [|done].
    intros [= <-]. by eapply reconstruct_path_walk.
  - destruct (visit_neighbors current (default [] (adj !! current)) (queue, visited, cf))
      as [[q' vis'] cf'] eqn:Hv.
    apply IH. eapply visit_neighbors_came_from; [|exact Hcf|exact Hv]. done.
Qed.

Lemma find_shortest_path_walk pf start end_ path :
  find_shortest_path pf start end_ = Ok path →
  path !! 0 = Some start ∧ last path = Some end_ ∧ adj_walk (adjacency_list pf) path.
Proof.
  intros H. unfold find_shortest_path in H. cbv zeta in H.
  destruct (negb _); [done|]. destruct (negb _); [done|].
  apply bfs_walk in H as (Hw & Hh & Hl); [|intros ? ?; by rewrite lookup_empty].
  done.
Qed.

(** X15: A path returned by find_shortest_path starts at the start page, ends at the end page, and each of its pages is in the adjacency list of the page before it. *)
Theorem find_shortest_path_is_walk pf start end_ path
  (H : find_shortest_path pf start end_ = Ok path) :
  path !! 0 = Some start ∧ last path = Some end_ ∧
  ∀ i x y, path !! i = Some x → path !! S i = Some y →
    y ∈ default [] (adjacency_list pf !! x).
Proof. apply find_shortest_path_walk. exact H. Qed.

Lemma find_shortest_path_is_walk_witness :
  find_shortest_path (add_edges PathFinder_new [("A", "B"); ("B", "C"); ("C", "D")]%string) "A" "D"
    = Ok ["A"; "B"; "C"; "D"]%string ∧
  last ["A"; "B"; "C"; "D"]%string = Some "D"%string.
Proof.
  assert (find_shortest_path (add_edges PathFinder_new [("A", "B"); ("B", "C"); ("C", "D")]%string)
            "A" "D" = Ok ["A"; "B"; "C"; "D"]%string) as H by (vm_compute; reflexivity).
  split; [exact H|].
  exact (proj1 (proj2 (find_shortest_path_is_walk _ _ _ _ H))).
Defined.


(** [usize] values of [analyze_connectivity]: [N] below [2^64], [+=]
    wrapping as in a release build. *)
Definition USIZE_MOD : N := 2 ^ 64.
Definition USIZE_MAX : N := USIZE_MOD - 1.
Definition usize_add (a b : N) : N := ((a + b) mod USIZE_MOD)%N.

(** The values [analyze_connectivity] prints (the average is
    [total_edges as f64 / total_nodes as f64]). *)
Record Connectivity := mkConnectivity {
  total_nodes : N;
  total_edges : N;
  nodes_with_no_edges : N;
  max_edges : N;
  min_edges : N
}.

(** One pass of the [for (_node, edges) in &self.adjacency_list] loop on
    [(total_edges, nodes_with_no_edges, max_edges, min_edges)]. *)
Definition connectivity_step (acc : N * N * N * N) (entry : string * list string)
  : N * N * N * N :=
  let '(total_edges, nodes_with_no_edges, max_edges, min_edges) := acc in
  let edge_count := N.of_nat (List.length entry.2) in
  (usize_add total_edges edge_count,
   (if (edge_count =? 0)%N then usize_add nodes_with_no_edges 1 else nodes_with_no_edges),
   N.max max_edges edge_count,
   N.min min_edges edge_count).

(** [PathFinder::analyze_connectivity], the map visited in [map_to_list]
    order (every result below is independent of the order). *)
Definition analyze_connectivity (pf : PathFinder) : Connectivity :=
  let '(te, nz, mx, mn) :=
    fold_left connectivity_step (map_to_list (adjacency_list pf)) (0%N, 0%N, 0%N, USIZE_MAX) in
  mkConnectivity (N.of_nat (size (adjacency_list pf))) te nz mx mn.

Definition entry_len (e : string * list string) : nat := List.length e.2.

Lemma connectivity_fold_total l te nz mx mn te' nz' mx' mn' :
  (te < USIZE_MOD)%N →
  fold_left connectivity_step l (te, nz, mx, mn) = (te', nz', mx', mn') →
  te' = ((te + N.of_nat (sum_list_with entry_len l)) mod USIZE_MOD)%N.
Proof.
  revert te nz mx mn. induction l as [|e l IH]; intros te nz mx mn Hte; simpl.
  - intros [= <- _ _ _]. rewrite N.add_0_r, N.mod_small; done.
  - intros Hf. apply IH in Hf; [|apply N.mod_lt; done].
    rewrite Hf. unfold usize_add, entry_len.
    rewrite N.Div0.add_mod_idemp_l. f_equal. lia.
Qed.

Lemma connectivity_fold_no_empty l te nz mx mn te' nz' mx' mn' :
  Forall (λ e, e.2 ≠ []) l →
  fold_left connectivity_step l (te, nz, mx, mn) = (te', nz', mx', mn') → nz' = nz.
Proof.
  revert te nz mx mn. induction l as [|[k v] l IH]; intros te nz mx mn Hl; simpl.
  - by intros [= _ <- _ _].
  - apply Forall_cons in Hl as [Hv Hl]. simpl in Hv.
    destruct v as [|x v]; [done|]. simpl. intros Hf. by apply IH in Hf.
Qed.

Lemma connectivity_fold_bounds l te nz mx mn te' nz' mx' mn' :
  fold_left connectivity_step l (te, nz, mx, mn) = (te', nz', mx', mn') →
  (mx ≤ mx')%N ∧ (mn' ≤ mn)%N ∧
  (∀ e, e ∈ l → N.of_nat (entry_len e) ≤ mx' ∧ mn' ≤ N.of_nat (entry_len e))%N ∧
  (mx' = mx ∨ ∃ e, e ∈ l ∧ mx' = N.of_nat (entry_len e)) ∧
  (mn' = mn ∨ ∃ e, e ∈ l ∧ mn' = N.of_nat (entry_len e)) ∧
  (mn ≤ mx → mn' ≤ mx')%N ∧ (l ≠ [] → mn' ≤ mx')%N.
Proof.
  revert te nz mx mn. induction l as [|e l IH]; intros te nz mx mn; simpl.
  - intros [= <- <- <- <-]. split_and!; try lia; try set_solver; by left.
  - intros Hf. unfold entry_len in *.
    destruct (IH _ _ _ _ Hf) as (Hmx & Hmn & Hall & Hmx' & Hmn' & Hle & _).
    split_and!.
    + lia.
    + lia.
    + intros e' [->|He']%elem_of_cons; [lia|]. by apply Hall.
    + destruct Hmx' as [->|(e' & He' & ->)].
      * destruct (N.max_spec mx (N.of_nat (List.length e.2))) as [[_ ->]|[_ ->]];
          [right; exists e; set_solver|by left].
      * right. exists e'. set_solver.
    + destruct Hmn' as [->|(e' & He' & ->)].
      * destruct (N.min_spec mn (N.of_nat (List.length e.2))) as [[_ ->]|[_ ->]];
          [by left|right; exists e; set_solver].
      * right. exists e'. set_solver.
    + intros. apply Hle. lia.
    + intros _. apply Hle. lia.
Qed.

Lemma sum_list_with_push_entry (m : gmap string (list string)) k v :
  sum_list_with entry_len (map_to_list (push_entry m k v)) =
  S (sum_list_with entry_len (map_to_list m)).
Proof.
  unfold push_entry. destruct (m !! k) as [l|] eqn:Hk; simpl.
  - rewrite <-(insert_delete_eq m).
    rewrite <-(map_to_list_delete m k l Hk).
    rewrite (map_to_list_insert (delete k m)) by (by rewrite lookup_delete_eq).
    simpl. unfold entry_len. simpl. rewrite length_app. simpl. lia.
  - rewrite (map_to_list_insert m) by done. simpl. done.
Qed.

Lemma sum_list_with_add_edges pf es :
  sum_list_with entry_len (map_to_list (adjacency_list (add_edges pf es))) =
  sum_list_with entry_len (map_to_list (adjacency_list pf)) + 2 * List.length es.
Proof.
  revert pf. induction es as [|[f t] es IH]; intros pf; simpl; [lia|].
  rewrite IH. unfold add_edge. simpl. rewrite !sum_list_with_push_entry. lia.
Qed.

Lemma add_edges_nonempty pf es x l :
  (∀ y k, adjacency_list pf !! y = Some k → k ≠ []) →
  adjacency_list (add_edges pf es) !! x = Some l → l ≠ [].
Proof.
  revert pf. induction es as [|[f t] es IH]; intros pf Hpf; simpl; [by apply Hpf|].
  apply IH. intros y k. unfold add_edge. simpl. rewrite !lookup_push_entry.
  repeat case_decide; intros; simplify_eq; try (destruct (default _ _); simpl; done).
  by eapply Hpf.
Qed.

Lemma add_edges_dom es :
  dom (adjacency_list (add_edges PathFinder_new es)) ≡
  (list_to_set (map fst es ++ map snd es) : gset string).
Proof.
  intros x. rewrite elem_of_dom, add_edges_is_Some, elem_of_list_to_set, elem_of_app,
    !list_elem_of_fmap. simpl. rewrite lookup_empty. split.
  - intros [[? Hx]|(z & [Hz|Hz])]; [done| |].
    + left. exists (x, z). by split.
    + right. exists (z, x). by split.
  - intros [([a b] & -> & Hab)|([a b] & -> & Hab)]; right; simpl.
    + exists b. by left.
    + exists a. by right.
Qed.

(** X18: On a graph built by add_edge from a list of edges, analyze_connectivity counts the distinct endpoints as nodes, twice the number of edges (mod 2^64) as edges and no node without edges; with no edges max is 0 and min is usize::MAX, otherwise 1 <= min <= max <= twice the number of edges. *)
Theorem analyze_connectivity_add_edges es :
  let r := analyze_connectivity (add_edges PathFinder_new es) in
  total_nodes r = N.of_nat (size (list_to_set (map fst es ++ map snd es) : gset string)) ∧
  total_edges r = (N.of_nat (2 * List.length es) mod USIZE_MOD)%N ∧
  nodes_with_no_edges r = 0%N ∧
  (es = [] → max_edges r = 0%N ∧ min_edges r = USIZE_MAX) ∧
  (es ≠ [] → 1 ≤ min_edges r ∧ min_edges r ≤ max_edges r ∧
             max_edges r ≤ N.of_nat (2 * List.length es))%N.
Proof.
  cbv zeta. unfold analyze_connectivity.
  set (adj := adjacency_list (add_edges PathFinder_new es)).
  destruct (fold_left _ _ _) as [[[te nz] mx] mn] eqn:Hf.
  cbn [total_nodes total_edges nodes_with_no_edges max_edges min_edges].
  assert (Hne : ∀ x l, adj !! x = Some l → l ≠ []).
  { intros x l. apply add_edges_nonempty. intros y k. simpl. by rewrite lookup_empty. }
  assert (Hsum : sum_list_with entry_len (map_to_list adj) = 2 * List.length es).
  { unfold adj. rewrite sum_list_with_add_edges. simpl. by rewrite map_to_list_empty. }
  destruct (connectivity_fold_bounds _ _ _ _ _ _ _ _ _ Hf)
    as (_ & Hmn & Hall & _ & Hmn' & _ & Hle).
  split_and!.
  - rewrite <-(size_dom (D := gset string)). unfold adj. by rewrite add_edges_dom.
  - assert (H0 : (0 < USIZE_MOD)%N) by (unfold USIZE_MOD; lia).
    rewrite (connectivity_fold_total _ _ _ _ _ _ _ _ _ H0 Hf), Hsum. by rewrite N.add_0_l.
  - apply connectivity_fold_no_empty in Hf; [done|].
    apply Forall_forall. intros [k v] Hkv%elem_of_map_to_list. by eapply Hne.
  - intros ->. revert Hf. unfold adj. simpl. rewrite map_to_list_empty. simpl.
    by intros [= _ _ <- <-].
  - intros Hes.
    assert (Hadj : map_to_list adj ≠ []).
    { destruct es as [|[f t] es]; [done|].
      assert (is_Some (adj !! f)) as [l Hl].
      { unfold adj. apply add_edges_is_Some. right. exists t. left. by left. }
      intros Hnil. apply (elem_of_map_to_list adj f l) in Hl. rewrite Hnil in Hl. set_solver. }
    split_and!.
    + destruct Hmn' as [->|(e & He & ->)].
      * unfold USIZE_MAX, USIZE_MOD. lia.
      * destruct e as [k v]. apply elem_of_map_to_list, Hne in He.
        unfold entry_len. simpl. destruct v; [done|]. simpl. lia.
    + by apply Hle.
    + destruct (connectivity_fold_bounds _ _ _ _ _ _ _ _ _ Hf)
        as (_ & _ & _ & [->|(e & He & ->)] & _); [lia|].
      rewrite <-Hsum. apply sum_list_with_in with (f := entry_len) in He. lia.
Qed.

From Stdlib Require Import ZArith.

(** [serde_json::Value]. An object is its list of fields; the loaders
    below treat every number alike, so numbers are kept as integers. *)
Inductive JValue :=
| JNull
| JBool (b : bool)
| JNumber (n : Z)
| JString (s : string)
| JArray (items : list JValue)
| JObject (fields : list (string * JValue)).

(** [value[key]]: the field of an object, [Null] when it is missing or
    [value] is no object. *)
Definition json_get (v : JValue) (key : string) : JValue :=
  match v with
  | JObject fields =>
      match List.find (fun kv => String.eqb kv.1 key) fields with
      | Some kv => kv.2
      | None => JNull
      end
  | _ => JNull
  end.

(** [value[i]]: the item of an array, [Null] when out of range or when
    [value] is no array. *)
Definition json_at (v : JValue) (i : nat) : JValue :=
  match v with
  | JArray items => default JNull (items !! i)
  | _ => JNull
  end.

Definition as_array (v : JValue) : option (list JValue) :=
  match v with JArray items => Some items | _ => None end.

Definition as_str (v : JValue) : option string :=
  match v with JString s => Some s | _ => None end.

(** [PathFinder::load_from_json] once the file is parsed into [data]. *)
Definition load_from_json_value (data : JValue) : PathFinder :=
  match as_array (json_get data "edges") with
  | Some edges =>
      fold_left (fun pathfinder edge =>
                   match as_str (json_at edge 0), as_str (json_at edge 1) with
                   | Some from, Some to => add_edge pathfinder from to
                   | _, _ => pathfinder
                   end) edges PathFinder_new
  | None => PathFinder_new
  end.

(** The [filter_map] closure of [main]: an array of at least two items
    whose first two are strings. [edge_array[0]], [edge_array[1]] are in
    range under the length test. *)
Definition main_edge (edge : JValue) : option (string * string) :=
  match as_array edge with
  | Some edge_array =>
      if 2 <=? List.length edge_array then
        match as_str (nth 0 edge_array JNull) with
        | Some from =>
            match as_str (nth 1 edge_array JNull) with
            | Some to => Some (from, to)
            | None => None
            end
        | None => None
        end
      else None
  | None => None
  end.

(** The edges [main] hands to [Analytics::load_from_edges]; [None] when
    [graph["edges"]] is no array (PageRank is then skipped). *)
Definition main_pagerank_edges (graph : JValue) : option (list (string * string)) :=
  match as_array (json_get graph "edges") with
  | Some edges => Some (omap main_edge edges)
  | None => None
  end.

(** [GraphExporter::export_json] before it is printed: [json!] builds a
    map with the keys in order, the nodes in the set's iteration order,
    each [(from, to)] as a two-item array. *)
Definition export_json_value (g : GraphExporter) : JValue :=
  JObject [("edges", JArray (map (fun '(from, to) => JArray [JString from; JString to]) (edges g)));
           ("nodes", JArray (map JString (elements (nodes g))))].

Lemma load_fold_omap edges pf :
  fold_left (fun pathfinder edge =>
               match as_str (json_at edge 0), as_str (json_at edge 1) with
               | Some from, Some to => add_edge pathfinder from to
               | _, _ => pathfinder
               end) edges pf = add_edges pf (omap main_edge edges).
Proof.
  revert pf. induction edges as [|edge edges IH]; intros pf; [done|].
  simpl. rewrite IH.
  destruct edge as [| | | |items|]; simpl; try done.
  unfold main_edge. destruct items as [|a [|b items]]; simpl; [done| |].
  - by destruct (as_str a).
  - by destruct (as_str a), (as_str b).
Qed.

(** X19: load_from_json builds the same graph as adding, with add_edge, the edges that main's PageRank loader reads from the same JSON value. *)
Theorem load_from_json_agrees_with_pagerank_loader data :
  load_from_json_value data = add_edges PathFinder_new (default [] (main_pagerank_edges data)).
Proof.
  unfold load_from_json_value, main_pagerank_edges.
  destruct (as_array _); [apply load_fold_omap|done].
Qed.

Lemma omap_main_edge_export es :
  omap main_edge (map (fun '(from, to) => JArray [JString from; JString to]) es) = es.
Proof. induction es as [|[f t] es IH]; simpl; [done|]. f_equal. exact IH. Qed.

(** X20: Reading back the JSON value that export_json writes gives the exported edge list in order, and load_from_json on it builds the graph of those edges. *)
Theorem export_json_load_roundtrip g :
  main_pagerank_edges (export_json_value g) = Some (edges g) ∧
  load_from_json_value (export_json_value g) = add_edges PathFinder_new (edges g).
Proof.
  unfold main_pagerank_edges, load_from_json_value.
  assert (json_get (export_json_value g) "edges" =
          JArray (map (fun '(from, to) => JArray [JString from; JString to]) (edges g))) as ->
    by reflexivity.
  cbn [as_array]. rewrite load_fold_omap. rewrite omap_main_edge_export. done.
Qed.


(** [PathFinder::list_pages]: the keys, in the map's iteration order, then
    sorted. *)
Definition list_pages (keys_of : KeyOrder) (pf : PathFinder) : list string :=
  merge_sort String.le (keys_of (adjacency_list pf)).

(** [PathFinder::get_page_sample]: [shuffle] is the [thread_rng] shuffle
    of the listed pages; the first [min count len] are kept and sorted. *)
Definition get_page_sample (keys_of : KeyOrder) (shuffle : list string → list string)
    (pf : PathFinder) (count : nat) : list string :=
  let pages := shuffle (list_pages keys_of pf) in
  merge_sort String.le (take (Nat.min count (List.length pages)) pages).

(** Strictly increasing in [Ord for String]. *)
Definition str_lt (x y : string) : Prop := String.le x y ∧ x ≠ y.

Lemma sorted_le_strict l :
  Sorted String.le l → NoDup l → StronglySorted str_lt l.
Proof.
  intros Hs Hnd. apply Sorted_StronglySorted in Hs;
    [|intros x y z; apply (transitivity (R:=String.le))].
  induction l as [|x l IH]; constructor.
  - apply IH; [by apply StronglySorted_inv in Hs as [? _]|by apply NoDup_cons in Hnd as [_ ?]].
  - apply StronglySorted_inv in Hs as [_ Hall]. apply NoDup_cons in Hnd as [Hx _].
    rewrite Forall_forall in Hall |- *. intros y Hy.
    split; [by apply Hall|]. intros ->. by destruct Hx.
Qed.

Lemma list_pages_spec keys_of pf (H : key_order_ok keys_of) :
  Sorted String.le (list_pages keys_of pf) ∧ NoDup (list_pages keys_of pf) ∧
  List.length (list_pages keys_of pf) = size (adjacency_list pf) ∧
  ∀ p, p ∈ list_pages keys_of pf ↔ is_Some (adjacency_list pf !! p).
Proof.
  unfold list_pages. split_and!.
  - apply Sorted_merge_sort. exact String.le_total.
  - rewrite merge_sort_Permutation, (H (adjacency_list pf)). apply NoDup_fst_map_to_list.
  - rewrite (Permutation_length (merge_sort_Permutation _ _)), (Permutation_length (H (adjacency_list pf))).
    unfold canonical_keys. by rewrite length_map, length_map_to_list.
  - intros p. by rewrite merge_sort_Permutation, (H (adjacency_list pf)), elem_of_canonical_keys.
Qed.

(** X21: list_pages returns the pages of the graph, each once, in strictly increasing order. *)
Theorem list_pages_sorted_keys keys_of pf (H : key_order_ok keys_of) :
  StronglySorted str_lt (list_pages keys_of pf) ∧
  ∀ p, p ∈ list_pages keys_of pf ↔ is_Some (adjacency_list pf !! p).
Proof.
  destruct (list_pages_spec keys_of pf H) as (Hs & Hnd & _ & Hm).
  split; [by apply sorted_le_strict|exact Hm].
Qed.

Lemma list_pages_sorted_keys_witness :
  key_order_ok canonical_keys ∧
  StronglySorted str_lt
    (list_pages canonical_keys (add_edges PathFinder_new [("B", "A"); ("C", "A")]%string)) ∧
  list_pages canonical_keys (add_edges PathFinder_new [("B", "A"); ("C", "A")]%string)
    = ["A"; "B"; "C"]%string.
Proof.
  assert (key_order_ok canonical_keys) as Hk by (intros m; reflexivity).
  split; [exact Hk|]. split.
  - exact (proj1 (list_pages_sorted_keys _ _ Hk)).
  - vm_compute. reflexivity.
Defined.

(** X22: For any shuffle that permutes its input, get_page_sample returns min(count, number of pages) distinct pages of the graph in strictly increasing order. *)
Theorem get_page_sample_spec keys_of shuffle pf count
  (H : key_order_ok keys_of) (Hshuffle : ∀ l, shuffle l ≡ₚ l) :
  StronglySorted str_lt (get_page_sample keys_of shuffle pf count) ∧
  List.length (get_page_sample keys_of shuffle pf count) = Nat.min count (size (adjacency_list pf)) ∧
  ∀ p, p ∈ get_page_sample keys_of shuffle pf count → is_Some (adjacency_list pf !! p).
Proof.
  destruct (list_pages_spec keys_of pf H) as (_ & Hnd & Hlen & Hm).
  unfold get_page_sample. cbv zeta.
  set (pages := shuffle (list_pages keys_of pf)).
  assert (Hp : pages ≡ₚ list_pages keys_of pf) by apply Hshuffle.
  split_and!.
  - apply sorted_le_strict; [apply Sorted_merge_sort; exact String.le_total|].
    rewrite merge_sort_Permutation. eapply sublist_NoDup; [|apply sublist_take].
    by rewrite Hp.
  - rewrite (Permutation_length (merge_sort_Permutation _ _)), length_take,
      (Permutation_length Hp), Hlen. lia.
  - intros p. rewrite merge_sort_Permutation. intros Hin%subseteq_take.
    rewrite Hp in Hin. by apply Hm.
Qed.

Lemma get_page_sample_spec_witness :
  key_order_ok canonical_keys ∧ (∀ l : list string, reverse l ≡ₚ l) ∧
  List.length (get_page_sample canonical_keys reverse
                 (add_edges PathFinder_new [("B", "A"); ("C", "A")]%string) 2) = 2 ∧
  get_page_sample canonical_keys reverse
    (add_edges PathFinder_new [("B", "A"); ("C", "A")]%string) 2 = ["B"; "C"]%string.
Proof.
  assert (key_order_ok canonical_keys) as Hk by (intros m; reflexivity).
  assert (∀ l : list string, reverse l ≡ₚ l) as Hr by apply reverse_Permutation.
  split; [exact Hk|]. split; [exact Hr|]. split.
  - rewrite (proj1 (proj2 (get_page_sample_spec _ _ _ 2 Hk Hr))). vm_compute. reflexivity.
  - vm_compute. reflexivity.
Defined.

From stdpp Require Import relations.

Section BfsShortest.
Variable adj : gmap string (list string).
Variables start end_ : string.

(** The BFS layer of a visited node, read from a ghost map [lvl]. *)
Definition lv (lvl : gmap string nat) (x : string) : nat := default 0 (lvl !! x).

(** The state of the [while let] loop of [find_shortest_path] between
    pops: the queue is [q1 ++ q2], [q1] in layer [k] and [q2] in layer
    [k + 1]; [came_from] links each visited node but [start] to a node of
    the layer below; a visited node that has left the queue, [busy] apart,
    has all its neighbours visited, at most one layer further. *)
Record bfs_inv (busy : list string) (lvl : gmap string nat) (k : nat) (q1 q2 : list string)
    (visited : gset string) (came_from : gmap string string) : Prop := {
  inv_start : lvl !! start = Some 0;
  inv_dom : ∀ x, x ∈ visited ↔ is_Some (lvl !! x);
  inv_cf : ∀ x p, came_from !! x = Some p → p ∈ visited ∧ lv lvl x = S (lv lvl p);
  inv_cf_some : ∀ x, x ∈ visited → x ≠ start → is_Some (came_from !! x);
  inv_nodup : NoDup (q1 ++ q2);
  inv_queue_vis : ∀ x, x ∈ q1 ++ q2 → x ∈ visited;
  inv_q1 : ∀ x, x ∈ q1 → lv lvl x = k;
  inv_q2 : ∀ x, x ∈ q2 → lv lvl x = S k;
  inv_le : ∀ x, x ∈ visited → lv lvl x ≤ S k;
  inv_closed : ∀ x, x ∈ visited → x ∉ q1 ++ q2 → x ∉ busy →
    ∀ y, adj_edge adj x y → y ∈ visited ∧ lv lvl y ≤ S (lv lvl x);
  inv_end : end_ ∈ visited → end_ ∈ q1 ++ q2 ∨ end_ ∈ busy
}.

Lemma bfs_inv_init :
  bfs_inv [] {[start := 0]} 0 [start] [] {[start]} ∅.
Proof.
  unfold lv. split.
  - unfold lv. by rewrite lookup_singleton_eq.
  - intros x. rewrite elem_of_singleton, lookup_singleton_is_Some. naive_solver.
  - intros x p. by rewrite lookup_empty.
  - intros x ->%elem_of_singleton. done.
  - apply NoDup_singleton.
  - intros x. simpl. rewrite list_elem_of_singleton. set_solver.
  - intros x ->%list_elem_of_singleton. unfold lv. by rewrite lookup_singleton_eq.
  - intros x Hx. by apply not_elem_of_nil in Hx.
  - intros x ->%elem_of_singleton. unfold lv. rewrite lookup_singleton_eq. simpl. lia.
  - intros x ->%elem_of_singleton Hq. destruct Hq. by left.
  - intros ->%elem_of_singleton. left. by left.
Qed.

Lemma lv_visited lvl x l : lvl !! x = Some l → lv lvl x = l.
Proof. unfold lv. by intros ->. Qed.

(** Every node within [k] steps of [start] is visited, at a layer no
    higher than its distance. *)
Lemma bfs_inv_near lvl k q1 q2 visited cf :
  bfs_inv [] lvl k q1 q2 visited cf →
  ∀ n y, nsteps (adj_edge adj) n start y → n ≤ k → y ∈ visited ∧ lv lvl y ≤ n.
Proof.
  intros Hinv. induction n as [|n IH]; intros y Hy Hn.
  - inversion Hy; subst. split.
    + apply (inv_dom _ _ _ _ _ _ _ Hinv). rewrite (inv_start _ _ _ _ _ _ _ Hinv). by eexists.
    + by rewrite (lv_visited _ _ _ (inv_start _ _ _ _ _ _ _ Hinv)).
  - apply nsteps_inv_r in Hy as (z & Hz & Hzy).
    destruct (IH z Hz ltac:(lia)) as [Hzv Hzl].
    assert (z ∉ q1 ++ q2) as Hzq.
    { intros [Hz1|Hz2]%elem_of_app.
      - apply (inv_q1 _ _ _ _ _ _ _ Hinv) in Hz1. lia.
      - apply (inv_q2 _ _ _ _ _ _ _ Hinv) in Hz2. lia. }
    destruct (inv_closed _ _ _ _ _ _ _ Hinv z Hzv Hzq (not_elem_of_nil _) y Hzy) as [Hy1 Hy2].
    split; [done|lia].
Qed.


Lemma lv_insert_ne lvl n l x : n ≠ x → lv (<[n := l]> lvl) x = lv lvl x.
Proof. intros Hne. unfold lv. by rewrite lookup_insert_ne. Qed.

Lemma bfs_inv_start_visited busy lvl k q1 q2 visited cf :
  bfs_inv busy lvl k q1 q2 visited cf → start ∈ visited.
Proof. intros Hinv. apply (inv_dom _ _ _ _ _ _ _ Hinv). rewrite (inv_start _ _ _ _ _ _ _ Hinv). by eexists. Qed.

Lemma bfs_inv_pop lvl k q1 q2 visited cf c rest :
  bfs_inv [] lvl k q1 q2 visited cf → q1 ++ q2 = c :: rest → c ≠ end_ →
  ∃ k' r1 r2, rest = r1 ++ r2 ∧ lv lvl c = k' ∧ bfs_inv [c] lvl k' r1 r2 visited cf ∧
    c ∈ visited ∧ c ∉ rest.
Proof.
  intros [Hst Hdom Hcf Hcfs Hnd Hqv Hq1 Hq2 Hle Hcl Hend] Hq Hce.
  assert (c ∈ visited) as Hcv by (apply Hqv; rewrite Hq; by left).
  assert (c ∉ rest) as Hcr by (rewrite Hq in Hnd; by apply NoDup_cons in Hnd as [? _]).
  assert (NoDup rest) as Hndr by (rewrite Hq in Hnd; by apply NoDup_cons in Hnd as [_ ?]).
  assert (∀ x, x ∈ rest → x ∈ visited) as Hrv by (intros x Hx; apply Hqv; rewrite Hq; by right).
  assert (∀ x, x ∈ visited → x ∉ rest → x ∉ [c] → x ∉ q1 ++ q2) as Hout.
  { intros x _ Hx Hxc. rewrite Hq. intros [->|?]%elem_of_cons; [apply Hxc; by left|done]. }
  assert (end_ ∈ visited → end_ ∈ rest) as Hend'.
  { intros He. destruct (Hend He) as [He'|He']; [|by apply not_elem_of_nil in He'].
    rewrite Hq in He'. apply elem_of_cons in He' as [->|?]; done. }
  destruct q1 as [|c1 q1'].
  - simpl in Hq. subst q2. exists (S k), rest, []. rewrite app_nil_r.
    split_and!; try done.
    + apply Hq2. by left.
    + split; try done.
      * by rewrite app_nil_r.
      * intros x Hx. by apply Hrv; rewrite app_nil_r in Hx.
      * intros x Hx. apply Hq2. by right.
      * intros x Hx. by apply not_elem_of_nil in Hx.
      * intros x Hx. specialize (Hle x Hx). lia.
      * intros x Hx Hxq Hxc. apply Hcl; [done| |by apply not_elem_of_nil].
        apply Hout; [done| |done]. by rewrite app_nil_r in Hxq.
      * intros He. left. rewrite app_nil_r. by apply Hend'.
  - simpl in Hq. injection Hq as -> <-. exists k, q1', q2.
    split_and!; try done.
    + apply Hq1. by left.
    + split; try done.
      * intros x Hx. apply Hq1. by right.
      * intros x Hx Hxq Hxc. apply Hcl; [done| |by apply not_elem_of_nil].
        by apply Hout.
      * intros He. left. by apply Hend'.
Qed.

Lemma visit_neighbors_inv c k' ns lvl q1 q2 visited cf q' vis' cf' :
  bfs_inv [c] lvl k' q1 q2 visited cf → lv lvl c = k' → c ∈ visited → c ∉ q1 ++ q2 →
  c ≠ end_ →
  (∀ y, adj_edge adj c y → y ∉ ns → y ∈ visited ∧ lv lvl y ≤ S k') →
  visit_neighbors c ns (q1 ++ q2, visited, cf) = (q', vis', cf') →
  ∃ lvl' q2', q' = q1 ++ q2' ∧ bfs_inv [] lvl' k' q1 q2' vis' cf'.
Proof.
  unfold visit_neighbors. revert lvl q2 visited cf.
  induction ns as [|n ns IH]; intros lvl q2 visited cf Hinv Hlc Hcv Hcq Hce Hdone; simpl.
  - intros [= <- <- <-]. exists lvl, q2. split; [done|].
    destruct Hinv as [Hst Hdom Hcf Hcfs Hnd Hqv Hq1 Hq2 Hle Hcl Hend].
    split; try done.
    + intros x Hx Hxq _. destruct (decide (x = c)) as [->|Hxc].
      * intros y Hy. rewrite Hlc. apply Hdone; [done|apply not_elem_of_nil].
      * apply Hcl; [done|done|]. by intros ->%list_elem_of_singleton.
    + intros He. destruct (Hend He) as [?| ->%list_elem_of_singleton]; [by left|done].
  - case_bool_decide as Hn.
    + intros Hf. apply (IH lvl q2 visited cf Hinv Hlc Hcv Hcq Hce); [|exact Hf].
      intros y Hy Hyns. destruct (decide (y = n)) as [->|Hyn].
      * split; [done|]. by apply (inv_le _ _ _ _ _ _ _ Hinv).
      * apply Hdone; [done|]. intros [?|?]%elem_of_cons; done.
    + rewrite <-app_assoc. intros Hf.
      pose proof (bfs_inv_start_visited _ _ _ _ _ _ _ Hinv) as Hsv.
      destruct Hinv as [Hst Hdom Hcf Hcfs Hnd Hqv Hq1 Hq2 Hle Hcl Hend].
      assert (Hvn : ∀ x, x ∈ visited → n ≠ x) by (intros x Hx ->; done).
      apply (IH (<[n := S k']> lvl) (q2 ++ [n]) ({[n]} ∪ visited) (<[n := c]> cf));
        [| |set_solver| | | |exact Hf].
      * split.
        -- rewrite lookup_insert_ne; [done|]. by apply Hvn.
        -- intros x. rewrite elem_of_union, elem_of_singleton, lookup_insert_is_Some', Hdom.
           naive_solver.
        -- intros x p. rewrite lookup_insert_Some.
           intros [[<- <-]|[Hxn Hxp]].
           ++ split; [set_solver|]. unfold lv at 1. rewrite lookup_insert_eq. simpl.
              rewrite lv_insert_ne by (by apply Hvn). by rewrite Hlc.
           ++ destruct (Hcf x p Hxp) as [Hpv Hl]. split; [set_solver|].
              rewrite (lv_insert_ne _ _ _ x Hxn), (lv_insert_ne _ _ _ p (Hvn p Hpv)). done.
        -- intros x Hx Hxs. rewrite lookup_insert_is_Some'.
           apply elem_of_union in Hx as [->%elem_of_singleton|Hx]; [by left|].
           right. by apply Hcfs.
        -- rewrite app_assoc. apply NoDup_app. split_and!; [done| |apply NoDup_singleton].
           intros x Hx ->%list_elem_of_singleton. by apply Hn, Hqv.
        -- intros x. rewrite app_assoc, elem_of_app, list_elem_of_singleton.
           intros [Hx| ->]; [|set_solver]. apply elem_of_union_r. by apply Hqv.
        -- intros x Hx. rewrite lv_insert_ne; [by apply Hq1|]. apply Hvn, Hqv.
           apply elem_of_app. by left.
        -- intros x. rewrite elem_of_app, list_elem_of_singleton. intros [Hx| ->].
           ++ rewrite lv_insert_ne; [by apply Hq2|]. apply Hvn, Hqv.
              apply elem_of_app. by right.
           ++ unfold lv. by rewrite lookup_insert_eq.
        -- intros x. rewrite elem_of_union, elem_of_singleton. intros [->|Hx].
           ++ unfold lv. rewrite lookup_insert_eq. simpl. lia.
           ++ rewrite lv_insert_ne by (by apply Hvn). by apply Hle.
        -- intros x Hx Hxq Hxc.
           assert (x ≠ n) as Hxn.
           { intros ->. apply Hxq. rewrite app_assoc. apply elem_of_app. right. by left. }
           assert (x ∈ visited) as Hxv by set_solver.
           intros y Hy. destruct (Hcl x Hxv ltac:(rewrite app_assoc in Hxq; set_solver) Hxc y Hy)
             as [Hyv Hyl].
           split; [set_solver|]. rewrite !lv_insert_ne by (by apply Hvn). done.
        -- intros He. apply elem_of_union in He as [->%elem_of_singleton|He].
           ++ left. rewrite app_assoc. apply elem_of_app. right. by left.
           ++ destruct (Hend He) as [?|?]; [left|by right].
              rewrite app_assoc. apply elem_of_app. by left.
      * rewrite lv_insert_ne; [done|]. by apply Hvn.
      * rewrite app_assoc. intros [Hc| ->%list_elem_of_singleton]%elem_of_app; [done|].
        done.
      * done.
      * intros y Hy Hyns. destruct (decide (y = n)) as [->|Hyn].
        -- split; [set_solver|]. unfold lv. rewrite lookup_insert_eq. simpl. lia.
        -- destruct (Hdone y Hy ltac:(intros [?|?]%elem_of_cons; done)) as [Hyv Hyl].
           split; [set_solver|]. rewrite lv_insert_ne by (by apply Hvn). done.
Qed.

Lemma reconstruct_loop_length busy lvl k q1 q2 visited cf fuel x path res :
  bfs_inv busy lvl k q1 q2 visited cf → x ∈ visited →
  reconstruct_loop cf start fuel x path = Some res →
  List.length res = List.length path + lv lvl x.
Proof.
  intros Hinv. revert x path. induction fuel as [|fuel IH]; intros x path Hx; simpl.
  - destruct (String.eqb_spec x start) as [->|]; [|done].
    intros [= <-]. rewrite (lv_visited _ _ _ (inv_start _ _ _ _ _ _ _ Hinv)). lia.
  - destruct (String.eqb_spec x start) as [->|Hxs].
    + intros [= <-]. rewrite (lv_visited _ _ _ (inv_start _ _ _ _ _ _ _ Hinv)). lia.
    + destruct (cf !! x) as [p|] eqn:Hp; [|done].
      destruct (inv_cf _ _ _ _ _ _ _ Hinv x p Hp) as [Hpv Hl].
      intros Hr. rewrite (IH p _ Hpv Hr), length_app, Hl. simpl. lia.
Qed.

Lemma reconstruct_loop_some busy lvl k q1 q2 visited cf fuel x path :
  bfs_inv busy lvl k q1 q2 visited cf → x ∈ visited → lv lvl x ≤ fuel →
  is_Some (reconstruct_loop cf start fuel x path).
Proof.
  intros Hinv. revert x path. induction fuel as [|fuel IH]; intros x path Hx Hf; simpl.
  - destruct (String.eqb_spec x start) as [->|Hxs]; [by eexists|].
    destruct (inv_cf_some _ _ _ _ _ _ _ Hinv x Hx Hxs) as [p Hp].
    destruct (inv_cf _ _ _ _ _ _ _ Hinv x p Hp). lia.
  - destruct (String.eqb_spec x start) as [->|Hxs]; [by eexists|].
    destruct (inv_cf_some _ _ _ _ _ _ _ Hinv x Hx Hxs) as [p Hp]. rewrite Hp.
    destruct (inv_cf _ _ _ _ _ _ _ Hinv x p Hp) as [Hpv Hl].
    apply IH; [done|lia].
Qed.

Lemma lv_le_size_came_from busy lvl k q1 q2 visited cf x :
  bfs_inv busy lvl k q1 q2 visited cf → x ∈ visited → lv lvl x ≤ size cf.
Proof.
  intros Hinv Hx.
  assert (∀ m y, y ∈ visited → lv lvl y = m →
            ∃ L, NoDup L ∧ List.length L = m ∧
                 ∀ z, z ∈ L → is_Some (cf !! z) ∧ lv lvl z ≤ m) as Hchain.
  { induction m as [|m IH]; intros y Hy Hm.
    - exists []. split_and!; [constructor|done|]. intros z Hz. by apply not_elem_of_nil in Hz.
    - destruct (decide (y = start)) as [->|Hys].
      { rewrite (lv_visited _ _ _ (inv_start _ _ _ _ _ _ _ Hinv)) in Hm. done. }
      destruct (inv_cf_some _ _ _ _ _ _ _ Hinv y Hy Hys) as [p Hp].
      destruct (inv_cf _ _ _ _ _ _ _ Hinv y p Hp) as [Hpv Hl].
      destruct (IH p Hpv ltac:(lia)) as (L & HL & HLl & HLz).
      exists (y :: L). split_and!.
      + constructor; [|done]. intros Hy'. destruct (HLz y Hy'). lia.
      + simpl. lia.
      + intros z [->|Hz]%elem_of_cons; [split; [by eexists|lia]|].
        destruct (HLz z Hz). split; [done|lia]. }
  destruct (Hchain _ x Hx eq_refl) as (L & HL & HLl & HLz).
  rewrite <-HLl, <-(size_list_to_set (C := gset string) L HL), <-(size_dom (D := gset string) cf).
  apply subseteq_size. intros z Hz%elem_of_list_to_set. apply elem_of_dom. by apply HLz.
Qed.

Lemma visited_closed lvl k visited cf :
  bfs_inv [] lvl k [] [] visited cf →
  ∀ y, rtc (adj_edge adj) start y → y ∈ visited.
Proof.
  intros Hinv.
  assert (∀ x y, rtc (adj_edge adj) x y → x ∈ visited → y ∈ visited) as Hr.
  { intros x y Hxy. induction Hxy as [|x z y Hxz Hzy IH]; intros Hx; [done|].
    apply IH. apply (inv_closed _ _ _ _ _ _ _ Hinv x Hx (not_elem_of_nil _)
                       (not_elem_of_nil _) z Hxz). }
  intros y Hy. apply (Hr start y Hy). by eapply bfs_inv_start_visited.
Qed.

Lemma bfs_shortest fuel lvl k q1 q2 visited cf path :
  bfs_inv [] lvl k q1 q2 visited cf →
  bfs adj start end_ fuel (q1 ++ q2) visited cf = Ok path →
  ∀ n, nsteps (adj_edge adj) n start end_ → List.length path ≤ S n.
Proof.
  revert lvl k q1 q2 visited cf. induction fuel as [|fuel IH];
    intros lvl k q1 q2 visited cf Hinv; simpl; [done|].
  destruct (q1 ++ q2) as [|c rest] eqn:Hq; [done|].
  destruct (String.eqb_spec c end_) as [->|Hce].
  - unfold reconstruct_path. destruct (negb _); [done|].
    destruct (reconstruct_loop cf start (size cf) end_ [end_]) as [p|] eqn:Hr; [|done].
    intros [= <-] n Hn.
    assert (end_ ∈ visited) as Hev by (apply (inv_queue_vis _ _ _ _ _ _ _ Hinv); rewrite Hq; by left).
    rewrite length_reverse, (reconstruct_loop_length _ _ _ _ _ _ _ _ _ _ _ Hinv Hev Hr). simpl.
    assert (k ≤ lv lvl end_) as Hk.
    { assert (end_ ∈ q1 ++ q2) as He by (rewrite Hq; by left).
      apply elem_of_app in He as [He|He].
      - rewrite (inv_q1 _ _ _ _ _ _ _ Hinv _ He). lia.
      - rewrite (inv_q2 _ _ _ _ _ _ _ Hinv _ He). lia. }
    pose proof (inv_le _ _ _ _ _ _ _ Hinv _ Hev).
    destruct (decide (n ≤ k)) as [Hnk|Hnk].
    + destruct (bfs_inv_near _ _ _ _ _ _ Hinv n end_ Hn Hnk). lia.
    + lia.
  - destruct (bfs_inv_pop _ _ _ _ _ _ _ _ Hinv Hq Hce) as (k' & r1 & r2 & -> & Hlc & Hinv' & Hcv & Hcr).
    destruct (visit_neighbors c (default [] (adj !! c)) (r1 ++ r2, visited, cf))
      as [[q' vis'] cf'] eqn:Hv.
    destruct (visit_neighbors_inv _ _ _ _ _ _ _ _ _ _ _ Hinv' Hlc Hcv Hcr Hce
                (λ y Hy Hyn, False_rect _ (Hyn Hy)) Hv) as (lvl' & q2' & -> & Hinv'').
    exact (IH lvl' k' r1 q2' vis' cf' Hinv'').
Qed.

Lemma bfs_complete fuel lvl k q1 q2 visited cf :
  bfs_inv [] lvl k q1 q2 visited cf → start ≠ end_ → rtc (adj_edge adj) start end_ →
  List.length (q1 ++ q2) + size (bfs_universe adj start ∖ visited) < fuel →
  ∃ path, bfs adj start end_ fuel (q1 ++ q2) visited cf = Ok path.
Proof.
  revert lvl k q1 q2 visited cf. induction fuel as [|fuel IH];
    intros lvl k q1 q2 visited cf Hinv Hse Hr Hf; [lia|]. simpl.
  destruct (q1 ++ q2) as [|c rest] eqn:Hq.
  - exfalso. apply app_eq_nil in Hq as [-> ->].
    pose proof (visited_closed _ _ _ _ Hinv end_ Hr) as Hev.
    destruct (inv_end _ _ _ _ _ _ _ Hinv Hev) as [He|He]; by apply not_elem_of_nil in He.
  - destruct (String.eqb_spec c end_) as [->|Hce].
    + assert (end_ ∈ visited) as Hev
        by (apply (inv_queue_vis _ _ _ _ _ _ _ Hinv); rewrite Hq; by left).
      unfold reconstruct_path.
      rewrite bool_decide_eq_true_2
        by (apply (inv_cf_some _ _ _ _ _ _ _ Hinv); [done|by intros ->]).
      cbn [negb].
      destruct (reconstruct_loop_some _ _ _ _ _ _ _ (size cf) end_ [end_] Hinv Hev
                  (lv_le_size_came_from _ _ _ _ _ _ _ end_ Hinv Hev)) as [p ->].
      by eexists.
    + destruct (bfs_inv_pop _ _ _ _ _ _ _ _ Hinv Hq Hce)
        as (k' & r1 & r2 & -> & Hlc & Hinv' & Hcv & Hcr).
      destruct (visit_neighbors c (default [] (adj !! c)) (r1 ++ r2, visited, cf))
        as [[q' vis'] cf'] eqn:Hv.
      destruct (visit_neighbors_spec (bfs_universe adj start) _ _ _ _ _ _ _ _
                  (neighbors_in_universe adj start c) Hv) as [Hs _].
      destruct (visit_neighbors_inv _ _ _ _ _ _ _ _ _ _ _ Hinv' Hlc Hcv Hcr Hce
                  (λ y Hy Hyn, False_rect _ (Hyn Hy)) Hv) as (lvl' & q2' & -> & Hinv'').
      apply (IH lvl' k' r1 q2' vis' cf' Hinv'' Hse Hr).
      simpl in Hf. lia.
Qed.

End BfsShortest.

Lemma find_shortest_path_bfs pf start end_ path :
  find_shortest_path pf start end_ = Ok path →
  bfs (adjacency_list pf) start end_ (bfs_fuel (adjacency_list pf)) ([start] ++ [])
      {[start]} ∅ = Ok path.
Proof.
  unfold find_shortest_path. cbv zeta. destruct (negb _); [done|]. destruct (negb _); [done|].
  done.
Qed.

Lemma find_shortest_path_shortest pf start end_ path n :
  find_shortest_path pf start end_ = Ok path →
  nsteps (adj_edge (adjacency_list pf)) n start end_ → List.length path ≤ S n.
Proof.
  intros H Hn. apply find_shortest_path_bfs in H.
  exact (bfs_shortest _ _ _ _ _ _ _ _ _ _ _ (bfs_inv_init _ start end_) H n Hn).
Qed.

(** X16: A path returned by find_shortest_path is a shortest one: if the end page is reachable from the start page in n steps, the path has at most n + 1 pages. *)
Theorem find_shortest_path_is_shortest pf start end_ path n
  (H : find_shortest_path pf start end_ = Ok path)
  (Hn : nsteps (adj_edge (adjacency_list pf)) n start end_) :
  List.length path ≤ S n.
Proof. exact (find_shortest_path_shortest pf start end_ path n H Hn). Qed.

(** X17: If both pages are in the graph, are different, and the end page is reachable from the start page, find_shortest_path returns a path. *)
Theorem find_shortest_path_finds_reachable pf start end_
  (Hs : is_Some (adjacency_list pf !! start)) (He : is_Some (adjacency_list pf !! end_))
  (Hne : start ≠ end_) (Hr : rtc (adj_edge (adjacency_list pf)) start end_) :
  ∃ path, find_shortest_path pf start end_ = Ok path.
Proof.
  unfold find_shortest_path. cbv zeta.
  rewrite !bool_decide_eq_true_2 by done. cbn [negb].
  apply (bfs_complete _ start end_ _ _ _ [start] [] _ _ (bfs_inv_init _ start end_) Hne Hr).
  apply bfs_fuel_enough.
Qed.

(** A–B–C–D with the shortcut A–D. *)
Definition square_edges : list (string * string) :=
  [("A", "B"); ("B", "C"); ("C", "D"); ("A", "D")]%string.

Lemma find_shortest_path_is_shortest_witness :
  find_shortest_path (add_edges PathFinder_new square_edges) "A" "D" = Ok ["A"; "D"]%string ∧
  nsteps (adj_edge (adjacency_list (add_edges PathFinder_new square_edges))) 1 "A" "D" ∧
  List.length ["A"; "D"]%string ≤ 2.
Proof.
  assert (find_shortest_path (add_edges PathFinder_new square_edges) "A" "D"
          = Ok ["A"; "D"]%string) as H by (vm_compute; reflexivity).
  assert (nsteps (adj_edge (adjacency_list (add_edges PathFinder_new square_edges))) 1 "A" "D")
    as Hn.
  { apply nsteps_once. unfold adj_edge. vm_compute. apply list_elem_of_In. simpl. tauto. }
  split; [exact H|]. split; [exact Hn|].
  exact (find_shortest_path_is_shortest _ _ _ _ 1 H Hn).
Defined.

Lemma find_shortest_path_finds_reachable_witness :
  ∃ path, find_shortest_path (add_edges PathFinder_new square_edges) "B" "D" = Ok path.
Proof.
  assert (is_Some (adjacency_list (add_edges PathFinder_new square_edges) !! "B"%string)) as Hs
    by (vm_compute; by eexists).
  assert (is_Some (adjacency_list (add_edges PathFinder_new square_edges) !! "D"%string)) as He
    by (vm_compute; by eexists).
  assert (rtc (adj_edge (adjacency_list (add_edges PathFinder_new square_edges))) "B" "D") as Hr.
  { apply (rtc_l _ _ "C"); [|apply rtc_once];
      unfold adj_edge; vm_compute; apply list_elem_of_In; simpl; tauto. }
  exact (find_shortest_path_finds_reachable _ _ _ Hs He ltac:(done) Hr).
Defined.


(** The [anyhow!] errors of [calculate_average_path_length]. *)
Inductive AvgError :=
| TooFewNodes
| NoPathsSampled (attempts : nat).

Inductive AvgResult :=
| AvgOk (avg : float)
| AvgErr (e : AvgError).

(** The sampling loop of [calculate_average_path_length] on
    [(total_distance, paths_found, attempts)]: [shuffles t] is the
    shuffled [0..n] of attempt [t]; [nodes[i]] and [nodes[j]] are in range
    when it is a permutation. [fuel] bounds the passes; [sample_size]
    passes are all the loop condition lets through. *)
Fixpoint avg_loop (pf : PathFinder) (nodes : list string) (shuffles : nat → list nat)
    (sample_size fuel : nat) (total_distance paths_found attempts : nat) : nat * nat * nat :=
  match fuel with
  | O => (total_distance, paths_found, attempts)
  | S fuel' =>
      if (paths_found <? 10) && (attempts <? sample_size) then
        let indices := shuffles attempts in
        let i := nth 0 indices 0 in
        let j := nth 1 indices 0 in
        match find_shortest_path pf (nth i nodes "") (nth j nodes "") with
        | Ok path =>
            avg_loop pf nodes shuffles sample_size fuel'
              (total_distance + (List.length path - 1)) (S paths_found) (S attempts)
        | Err _ =>
            avg_loop pf nodes shuffles sample_size fuel' total_distance paths_found (S attempts)
        end
      else (total_distance, paths_found, attempts)
  end.

(** [PathFinder::calculate_average_path_length]: [nodes] is the key list
    in the map's iteration order; the [println!]s are left out. *)
Definition calculate_average_path_length (keys_of : KeyOrder) (shuffles : nat → list nat)
    (pf : PathFinder) : AvgResult :=
  let nodes := keys_of (adjacency_list pf) in
  let n := List.length nodes in
  if n <=? 1 then AvgErr TooFewNodes else
  let sample_size := Nat.min 100 (n * (n - 1) / 2) in
  let '(total_distance, paths_found, attempts) :=
    avg_loop pf nodes shuffles sample_size sample_size 0 0 0 in
  if paths_found =? 0 then AvgErr (NoPathsSampled attempts)
  else AvgOk (f64_of_usize total_distance / f64_of_usize paths_found)%float.

(** [d] is the length of a shortest walk between two distinct pages. *)
Definition graph_distance (adj : gmap string (list string)) (d : nat) : Prop :=
  ∃ x y, x ≠ y ∧ nsteps (adj_edge adj) d x y ∧ ∀ m, nsteps (adj_edge adj) m x y → d ≤ m.

Lemma adj_walk_nsteps adj path x y :
  adj_walk adj path → path !! 0 = Some x → last path = Some y →
  nsteps (adj_edge adj) (List.length path - 1) x y.
Proof.
  revert x. induction path as [|a path IH]; intros x Hw Hx Hl; [done|].
  simpl in Hx. injection Hx as ->.
  destruct path as [|b path].
  - simpl in Hl. injection Hl as ->. constructor.
  - replace (List.length (x :: b :: path) - 1) with (S (List.length (b :: path) - 1))
      by (simpl; lia).
    apply nsteps_l with b; [by apply (Hw 0)|].
    apply IH; [|done|done].
    intros i u v Hu Hv. by apply (Hw (S i)).
Qed.

Lemma find_shortest_path_self pf x path : find_shortest_path pf x x ≠ Ok path.
Proof.
  unfold find_shortest_path. cbv zeta.
  destruct (negb (bool_decide (is_Some (adjacency_list pf !! x)))); [done|].
  unfold bfs_fuel. cbn [bfs]. rewrite String.eqb_refl.
  unfold reconstruct_path. rewrite lookup_empty, bool_decide_eq_false_2; [done|].
  by intros [? ?].
Qed.

Lemma find_shortest_path_distance pf x y path :
  find_shortest_path pf x y = Ok path →
  graph_distance (adjacency_list pf) (List.length path - 1).
Proof.
  intros H. exists x, y. split_and!.
  - intros ->. by apply (find_shortest_path_self pf y path).
  - destruct (find_shortest_path_walk _ _ _ _ H) as (Hh & Hl & Hw).
    by apply adj_walk_nsteps.
  - intros m Hm. pose proof (find_shortest_path_shortest _ _ _ _ _ H Hm). lia.
Qed.

Lemma avg_loop_spec pf nodes shuffles sample_size fuel total found attempts total' found' attempts' :
  avg_loop pf nodes shuffles sample_size fuel total found attempts = (total', found', attempts') →
  ∃ ds, total' = total + sum_list ds ∧ found' = found + List.length ds ∧
    found' ≤ Nat.max found 10 ∧ attempts' ≤ Nat.max attempts sample_size ∧
    Forall (graph_distance (adjacency_list pf)) ds.
Proof.
  revert total found attempts. induction fuel as [|fuel IH]; intros total found attempts; simpl.
  - intros [= <- <- <-]. exists []. simpl. split_and!; try lia. constructor.
  - destruct (found <? 10) eqn:Hf; [destruct (attempts <? sample_size) eqn:Ha|]; simpl.
    2, 3: intros [= <- <- <-]; exists []; simpl; split_and!; try lia; constructor.
    apply Nat.ltb_lt in Hf, Ha.
    destruct (find_shortest_path _ _ _) as [path|e] eqn:Hp; intros Hl;
      destruct (IH _ _ _ Hl) as (ds & Ht & Hfd & Hfm & Ham & Hds).
    + exists ((List.length path - 1) :: ds). simpl. split_and!; try lia.
      constructor; [|done]. by eapply find_shortest_path_distance.
    + exists ds. split_and!; try lia. done.
Qed.

(** X23: calculate_average_path_length fails with the too-few-nodes error on a graph of at most one page. *)
Theorem calculate_average_path_length_too_few keys_of shuffles pf
  (H : key_order_ok keys_of) (Hn : size (adjacency_list pf) ≤ 1) :
  calculate_average_path_length keys_of shuffles pf = AvgErr TooFewNodes.
Proof.
  unfold calculate_average_path_length. cbv zeta.
  rewrite (Permutation_length (H (adjacency_list pf))). unfold canonical_keys.
  rewrite length_map, length_map_to_list.
  by rewrite (proj2 (Nat.leb_le _ _) Hn).
Qed.

(** X24: When calculate_average_path_length succeeds, its result is the mean of between 1 and 10 sampled path lengths, each of which is a graph distance: the length of a shortest walk between two pages. *)
Theorem calculate_average_path_length_ok keys_of shuffles pf avg
  (H : calculate_average_path_length keys_of shuffles pf = AvgOk avg) :
  ∃ ds, 1 ≤ List.length ds ≤ 10 ∧
    avg = (f64_of_usize (sum_list ds) / f64_of_usize (List.length ds))%float ∧
    Forall (graph_distance (adjacency_list pf)) ds.
Proof.
  unfold calculate_average_path_length in H. cbv zeta in H.
  destruct (_ <=? 1); [done|].
  destruct (avg_loop _ _ _ _ _ _ _ _) as [[total found] attempts] eqn:Hl.
  destruct (Nat.eqb_spec found 0) as [|Hf]; [done|].
  injection H as <-.
  destruct (avg_loop_spec _ _ _ _ _ _ _ _ _ _ _ Hl) as (ds & -> & -> & Hfm & _ & Hds).
  exists ds. simpl in *. split_and!; [lia|lia|done|done].
Qed.

Lemma calculate_average_path_length_too_few_witness :
  key_order_ok canonical_keys ∧
  size (adjacency_list (add_edges PathFinder_new [("A", "A")]%string)) ≤ 1 ∧
  calculate_average_path_length canonical_keys (fun _ => [0])
    (add_edges PathFinder_new [("A", "A")]%string) = AvgErr TooFewNodes.
Proof.
  assert (key_order_ok canonical_keys) as Hk by (intros m; reflexivity).
  assert (size (adjacency_list (add_edges PathFinder_new [("A", "A")]%string)) ≤ 1) as Hn
    by (vm_compute; lia).
  split; [exact Hk|]. split; [exact Hn|].
  exact (calculate_average_path_length_too_few _ _ _ Hk Hn).
Defined.

Lemma calculate_average_path_length_ok_witness :
  ∃ avg, calculate_average_path_length canonical_keys (fun _ => seq 0 4)
           (add_edges PathFinder_new square_edges) = AvgOk avg ∧
    ∃ ds, 1 ≤ List.length ds ≤ 10 ∧
      avg = (f64_of_usize (sum_list ds) / f64_of_usize (List.length ds))%float ∧
      Forall (graph_distance (adjacency_list (add_edges PathFinder_new square_edges))) ds.
Proof.
  destruct (calculate_average_path_length canonical_keys (fun _ => seq 0 4)
              (add_edges PathFinder_new square_edges)) as [avg|e] eqn:H.
  - exists avg. split; [done|]. exact (calculate_average_path_length_ok _ _ _ _ H).
  - vm_compute in H. discriminate.
Defined.
